(** * decentralized-guardian: the hash-chained anomaly ledger

    A shallow embedding of [src/blockchain_logger.py] (class
    [BlockchainLogger]) together with the two library functions it is
    built on, [hashlib.sha256(..).hexdigest()] and [json.dumps], and the
    part of SQLite's behaviour the class depends on: the
    [INTEGER PRIMARY KEY AUTOINCREMENT] row id and the [UNIQUE] constraint
    on [current_hash].  The readers of the table in [Src/dashboard.py]
    ([update_stats], [/api/blockchain/verify]) and the water detector of
    [src/anomaly_detector.py], whose reports the logger stores, follow.

    Conventions.
    - A Python [str] is a list of Unicode code points ([pystr]).  Text that
      is ASCII by construction (hex digests, JSON output) is a [string].
    - The database file is a value of type [database]; every method takes
      it and returns it, so that two logger objects opened on one file
      share it.
    - What a call observes from its environment (the clock, a storage
      failure) travels with the call's arguments in the record [call]. *)

From Stdlib Require Import ZArith NArith List String Ascii Bool Lia.
From Stdlib Require Import DecimalString Permutation Sorted.
From Stdlib Require QArith.
Import ListNotations.
Open Scope Z_scope.

(* ================================================================= *)
(** ** hashlib.sha256 (FIPS 180-4) *)

Module Sha256.

Definition mask32 : Z := 0xFFFFFFFF.
Definition add32 (a b : Z) : Z := Z.land (a + b) mask32.
Definition rotr (n x : Z) : Z :=
  Z.lor (Z.shiftr x n) (Z.land (Z.shiftl x (32 - n)) mask32).
Definition Ch (x y z : Z) : Z :=
  Z.lxor (Z.land x y) (Z.land (Z.lxor x mask32) z).
Definition Maj (x y z : Z) : Z :=
  Z.lxor (Z.lxor (Z.land x y) (Z.land x z)) (Z.land y z).
Definition Sigma0 (x : Z) : Z :=
  Z.lxor (Z.lxor (rotr 2 x) (rotr 13 x)) (rotr 22 x).
Definition Sigma1 (x : Z) : Z :=
  Z.lxor (Z.lxor (rotr 6 x) (rotr 11 x)) (rotr 25 x).
Definition sigma0 (x : Z) : Z :=
  Z.lxor (Z.lxor (rotr 7 x) (rotr 18 x)) (Z.shiftr x 3).
Definition sigma1 (x : Z) : Z :=
  Z.lxor (Z.lxor (rotr 17 x) (rotr 19 x)) (Z.shiftr x 10).

(** The constants of FIPS 180-4, 4.2.2 and 5.3.3: the first 32 bits of the
    fractional parts of the cube roots (for [K]) and of the square roots
    (for [H0]) of the first primes. *)
Definition is_prime (n : nat) : bool :=
  forallb (fun d => negb (Nat.eqb (n mod d) 0)) (seq 2 (n - 2)).

Definition primes_below (n : nat) : list Z :=
  map Z.of_nat (filter is_prime (seq 2 (n - 2))).

(** The largest [r] below [2 ^ n] with [r ^ 3 <= x], one bit at a time. *)
Fixpoint cube_root (n : nat) (x r : Z) : Z :=
  match n with
  | O => r
  | S n' =>
      let r' := r + 2 ^ Z.of_nat n' in
      cube_root n' x (if r' * r' * r' <=? x then r' else r)
  end.

Definition frac_cbrt (p : Z) : Z :=
  Z.land (cube_root 36 (p * 2 ^ 96) 0) mask32.

Definition frac_sqrt (p : Z) : Z :=
  Z.land (Z.sqrt (p * 2 ^ 64)) mask32.

Definition K : list Z :=
  Eval vm_compute in map frac_cbrt (primes_below 312).

(** The eight 32-bit words of the chaining value. *)
Record state : Type := mkState {
  ha : Z; hb : Z; hc : Z; hd : Z; he : Z; hf : Z; hg : Z; hh : Z }.

Definition H0 : state :=
  Eval vm_compute in
    mkState (frac_sqrt 2) (frac_sqrt 3) (frac_sqrt 5) (frac_sqrt 7)
            (frac_sqrt 11) (frac_sqrt 13) (frac_sqrt 17) (frac_sqrt 19).

Definition be_bytes (n : nat) (x : Z) : list Z :=
  map (fun i => Z.land (Z.shiftr x (8 * Z.of_nat i)) 0xFF) (rev (seq 0 n)).

(** Padding: one 0x80 byte, zero bytes up to 56 modulo 64, then the
    message length in bits on eight bytes. *)
Definition pad (msg : list Z) : list Z :=
  let len := Z.of_nat (List.length msg) in
  (msg ++ [0x80] ++ repeat 0 (Z.to_nat ((55 - len) mod 64))
       ++ be_bytes 8 (8 * len))%list.

Fixpoint words (n : nat) (bs : list Z) : list Z :=
  match n, bs with
  | S n', b0 :: b1 :: b2 :: b3 :: rest =>
      (Z.shiftl b0 24 + Z.shiftl b1 16 + Z.shiftl b2 8 + b3) :: words n' rest
  | _, _ => []
  end.

(** The message schedule, newest word first: [rw] is W[t-1], W[t-2], ... *)
Fixpoint extend (n : nat) (rw : list Z) : list Z :=
  match n with
  | O => rw
  | S n' =>
      let w := add32 (add32 (sigma1 (nth 1 rw 0)) (nth 6 rw 0))
                     (add32 (sigma0 (nth 14 rw 0)) (nth 15 rw 0)) in
      extend n' (w :: rw)
  end.

Definition schedule (block : list Z) : list Z :=
  rev (extend 48 (rev (words 16 block))).

Definition round (s : state) (kw : Z * Z) : state :=
  let '(k, w) := kw in
  let t1 := add32 (add32 (add32 (hh s) (Sigma1 (he s)))
                         (Ch (he s) (hf s) (hg s)))
                  (add32 k w) in
  let t2 := add32 (Sigma0 (ha s)) (Maj (ha s) (hb s) (hc s)) in
  mkState (add32 t1 t2) (ha s) (hb s) (hc s)
          (add32 (hd s) t1) (he s) (hf s) (hg s).

Definition compress (s : state) (block : list Z) : state :=
  let r := fold_left round (combine K (schedule block)) s in
  mkState (add32 (ha s) (ha r)) (add32 (hb s) (hb r))
          (add32 (hc s) (hc r)) (add32 (hd s) (hd r))
          (add32 (he s) (he r)) (add32 (hf s) (hf r))
          (add32 (hg s) (hg r)) (add32 (hh s) (hh r)).

Fixpoint blocks (n : nat) (s : state) (bs : list Z) : state :=
  match n with
  | O => s
  | S n' => blocks n' (compress s (firstn 64 bs)) (skipn 64 bs)
  end.

Definition digest (msg : list Z) : state :=
  let p := pad msg in blocks (List.length p / 64)%nat H0 p.

Definition state_words (s : state) : list Z :=
  [ha s; hb s; hc s; hd s; he s; hf s; hg s; hh s].

(** [.digest()]: the 32 bytes of the hash value. *)
Definition digest_bytes (msg : list Z) : list Z :=
  flat_map (be_bytes 4) (state_words (digest msg)).

Definition hex_digit (d : Z) : ascii :=
  ascii_of_N (Z.to_N (if d <? 10 then 48 + d else 87 + d)).

Definition hex_byte (b : Z) : list ascii :=
  [hex_digit (Z.shiftr b 4); hex_digit (Z.land b 0xF)].

(** [s.encode()] for text that is ASCII, as the output of [json.dumps]
    with [ensure_ascii] is: one byte per character. *)
Definition encode (s : string) : list Z :=
  map (fun c => Z.of_N (N_of_ascii c)) (list_ascii_of_string s).

(** [hashlib.sha256(s.encode()).hexdigest()] *)
Definition hexdigest (s : string) : string :=
  string_of_list_ascii (flat_map hex_byte (digest_bytes (encode s))).

End Sha256.

(* ================================================================= *)
(** ** Python values and json.dumps *)

(** A Python [str]: its code points. *)
Definition pystr : Type := list N.

Definition ustr (s : string) : pystr :=
  map N_of_ascii (list_ascii_of_string s).

(** [a <= b] on [str]: lexicographic on code points, a proper prefix
    first. *)
Fixpoint pystr_leb (a b : pystr) : bool :=
  match a, b with
  | [], _ => true
  | _ :: _, [] => false
  | x :: a', y :: b' =>
      if N.ltb x y then true
      else if N.eqb x y then pystr_leb a' b'
      else false
  end.

Module Json.

(** The values [json.dumps] accepts here.  [JFloat] carries the text the
    encoder emits for the number ([float.__repr__], or [NaN], [Infinity],
    [-Infinity]); a tuple is encoded as a list; the keys of a dict are
    [str] and distinct, in insertion order. *)
Unset Elimination Schemes.
Inductive json : Type :=
| JNull
| JBool (b : bool)
| JInt (n : Z)
| JFloat (repr : string)
| JStr (s : pystr)
| JList (xs : list json)
| JDict (items : list (pystr * json)).
Set Elimination Schemes.

Definition backslash : ascii := ascii_of_N 92.
Definition dquote : ascii := ascii_of_N 34.

Definition hex4 (n : N) : string :=
  string_of_list_ascii
    (map (fun i => Sha256.hex_digit
                     (Z.land (Z.shiftr (Z.of_N n) (4 * Z.of_nat i)) 0xF))
         [3; 2; 1; 0]%nat).

Definition esc (c : ascii) : string :=
  String backslash (String c EmptyString).

Definition uescape (n : N) : string :=
  (esc "u" ++ hex4 n)%string.

(** json.encoder.py_encode_basestring_ascii, one character:
    ESCAPE_DCT first, then [\uXXXX], with a surrogate pair above the
    basic plane; printable ASCII is copied. *)
Definition escape_char (c : N) : string :=
  if (c =? 92)%N then esc backslash
  else if (c =? 34)%N then esc dquote
  else if (c =? 8)%N then esc "b"
  else if (c =? 12)%N then esc "f"
  else if (c =? 10)%N then esc "n"
  else if (c =? 13)%N then esc "r"
  else if (c =? 9)%N then esc "t"
  else if ((32 <=? c) && (c <=? 126))%N then String (ascii_of_N c) EmptyString
  else if (c <? 0x10000)%N then uescape c
  else
    let n := (c - 0x10000)%N in
    let s1 := N.lor 0xd800 (N.land (N.shiftr n 10) 0x3ff) in
    let s2 := N.lor 0xdc00 (N.land n 0x3ff) in
    (uescape s1 ++ uescape s2)%string.

Definition encode_basestring_ascii (s : pystr) : string :=
  (String dquote (String.concat "" (map escape_char s))
     ++ String dquote EmptyString)%string.

(** [sorted(dct.items())] on items with distinct [str] keys: the keys
    decide.  A stable insertion sort. *)
Fixpoint insert_item {A : Type} (kv : pystr * A) (l : list (pystr * A))
  : list (pystr * A) :=
  match l with
  | [] => [kv]
  | kv' :: l' =>
      if pystr_leb (fst kv) (fst kv') then kv :: l
      else kv' :: insert_item kv l'
  end.

Definition sorted_items {A : Type} (l : list (pystr * A))
  : list (pystr * A) :=
  fold_right insert_item [] l.

Definition render_item (kv : pystr * string) : string :=
  (encode_basestring_ascii (fst kv) ++ ": " ++ snd kv)%string.

(** [json.dumps(v, sort_keys=sort_keys)] with the default separators and
    [ensure_ascii=True].  The members of a dict are encoded first and
    ordered afterwards: the order looks at the keys only. *)
Fixpoint dumps (sort_keys : bool) (v : json) : string :=
  match v with
  | JNull => "null"
  | JBool true => "true"
  | JBool false => "false"
  | JInt n => NilZero.string_of_int (Z.to_int n)
  | JFloat r => r
  | JStr s => encode_basestring_ascii s
  | JList xs =>
      ("[" ++ String.concat ", " (map (dumps sort_keys) xs) ++ "]")%string
  | JDict items =>
      let encoded := map (fun '(k, x) => (k, dumps sort_keys x)) items in
      let ordered := if sort_keys then sorted_items encoded else encoded in
      ("{" ++ String.concat ", " (map render_item ordered) ++ "}")%string
  end.

(** The members of a dict, each value encoded. *)
Definition encode_members (sort_keys : bool) (items : list (pystr * json))
  : list (pystr * string) :=
  map (fun '(k, x) => (k, dumps sort_keys x)) items.

(** Python's [None] or a [str], as a JSON value. *)
Definition of_optional (o : option pystr) : json :=
  match o with
  | None => JNull
  | Some s => JStr s
  end.

End Json.

Import Json.

(* ================================================================= *)
(** ** The SQLite table [blocks] *)

Module Store.

(** One row of
    [blocks(id, previous_hash, current_hash, timestamp, data_type,
            sensor_id, fund_id, anomaly_type, severity, data)];
    a nullable column bound to [None] is [None]. *)
Record row : Type := mkRow {
  id : Z;
  previous_hash : string;
  current_hash : string;
  timestamp : string;
  data_type : pystr;
  sensor_id : option pystr;
  fund_id : option pystr;
  anomaly_type : option pystr;
  severity : pystr;
  data : string }.

(** The database file: the rows of the table and the counter SQLite keeps
    in [sqlite_sequence] for an AUTOINCREMENT key (the largest row id the
    table has ever held). *)
Record database : Type := mkDb {
  blocks : list row;
  sqlite_sequence : Z }.

Definition empty_db : database := mkDb [] 0.

Inductive exn : Type :=
| IntegrityError      (* sqlite3.IntegrityError: UNIQUE constraint failed *)
| OperationalError.   (* sqlite3.OperationalError: storage unavailable or full *)

Definition max_rowid : Z := 9223372036854775807.

Definition largest_id (rows : list row) : Z :=
  fold_right Z.max 0 (map id rows).

(** [INSERT INTO blocks (previous_hash, ..., data) VALUES (?, ..., ?)]
    followed by [commit].  The row id is one more than the largest the
    table has ever held; when that is exhausted the statement fails
    (SQLITE_FULL).  A row whose [current_hash] is already stored violates
    the UNIQUE constraint.  A failed statement changes nothing.  On
    success the new row id ([cursor.lastrowid]) is returned. *)
Definition insert_block (db : database)
    (previous_hash current_hash timestamp : string) (data_type : pystr)
    (sensor_id fund_id anomaly_type : option pystr) (severity : pystr)
    (data : string) : exn + Z * database :=
  let rowid := Z.max (sqlite_sequence db) (largest_id (blocks db)) + 1 in
  if max_rowid <? rowid then inl OperationalError
  else if existsb (fun r => String.eqb (Store.current_hash r) current_hash)
                  (blocks db)
  then inl IntegrityError
  else inr (rowid,
            mkDb (blocks db ++
                    [mkRow rowid previous_hash current_hash timestamp
                           data_type sensor_id fund_id anomaly_type
                           severity data])
                 rowid).

(** [ORDER BY id]: a stable insertion sort on the key. *)
Fixpoint insert_by_id (r : row) (l : list row) : list row :=
  match l with
  | [] => [r]
  | r' :: l' =>
      if id r <=? id r' then r :: l else r' :: insert_by_id r l'
  end.

Definition order_by_id (rows : list row) : list row :=
  fold_right insert_by_id [] rows.

(** [SELECT * FROM blocks ORDER BY id] *)
Definition select_all (db : database) : list row :=
  order_by_id (blocks db).

(** [SELECT * FROM blocks ORDER BY id DESC LIMIT 1], [fetchone()] *)
Definition select_last (db : database) : option row :=
  match rev (order_by_id (blocks db)) with
  | [] => None
  | r :: _ => Some r
  end.

End Store.

Import Store.

(* ================================================================= *)
(** ** class BlockchainLogger *)

(** [self.chain] holds either the row [load_chain] fetched or the triple
    [(lastrowid, previous_hash, current_hash)] stored by [create_block];
    both have the current hash at index 2. *)
Inductive tail : Type :=
| Fetched (r : row)
| Appended (lastrowid : Z) (previous_hash current_hash : string).

Definition item2 (t : tail) : string :=
  match t with
  | Fetched r => current_hash r
  | Appended _ _ h => h
  end.

Record BlockchainLogger : Type := mkLogger {
  chain : option tail }.

(** [init_db]: CREATE TABLE IF NOT EXISTS.  [None] is a file without the
    table. *)
Definition init_db (file : option database) : database :=
  match file with
  | None => empty_db
  | Some db => db
  end.

Definition load_chain (db : database) : option tail :=
  match select_last db with
  | Some last_block => Some (Fetched last_block)
  | None => None
  end.

(** [BlockchainLogger(db_path)] *)
Definition new_logger (file : option database) : BlockchainLogger * database :=
  let db := init_db file in
  (mkLogger (load_chain db), db).

(** The arguments of one [create_block] call and what the call observes:
    the clock, and whether a sqlite3 call raises before the commit
    completes. *)
Record call : Type := mkCall {
  utcnow : string;
  storage_fails : bool;
  arg_data_type : pystr;
  arg_sensor_id : option pystr;
  arg_fund_id : option pystr;
  arg_anomaly_type : option pystr;
  arg_severity : pystr;
  arg_data : json }.

(** The dict [create_block] returns. *)
Record receipt : Type := mkReceipt {
  block_id : Z;
  r_previous_hash : string;
  r_current_hash : string;
  r_timestamp : string;
  integrity : string }.

(** ["0" * 64] *)
Definition genesis : string := string_of_list_ascii (repeat "0"%char 64).

Definition cached_previous (self : BlockchainLogger) : string :=
  match chain self with
  | Some t => item2 t
  | None => genesis
  end.

Definition block_data (previous_hash : string) (c : call) : json :=
  JDict [ (ustr "previous_hash", JStr (ustr previous_hash));
          (ustr "timestamp", JStr (ustr (utcnow c)));
          (ustr "data_type", JStr (arg_data_type c));
          (ustr "sensor_id", of_optional (arg_sensor_id c));
          (ustr "fund_id", of_optional (arg_fund_id c));
          (ustr "anomaly_type", of_optional (arg_anomaly_type c));
          (ustr "severity", JStr (arg_severity c));
          (ustr "data", arg_data c) ].

Definition block_hash (previous_hash : string) (c : call) : string :=
  let block_string := dumps true (block_data previous_hash c) in
  Sha256.hexdigest block_string.

Definition create_block (self : BlockchainLogger) (db : database) (c : call)
  : (exn + receipt) * BlockchainLogger * database :=
  let timestamp := utcnow c in
  let previous_hash := cached_previous self in
  let current_hash := block_hash previous_hash c in
  if storage_fails c then (inl OperationalError, self, db)
  else
    match insert_block db previous_hash current_hash timestamp
            (arg_data_type c) (arg_sensor_id c) (arg_fund_id c)
            (arg_anomaly_type c) (arg_severity c)
            (dumps false (arg_data c)) with
    | inl e => (inl e, self, db)
    | inr (lastrowid, db') =>
        (inr (mkReceipt lastrowid previous_hash current_hash timestamp
                        "VERIFIED"),
         mkLogger (Some (Appended lastrowid previous_hash current_hash)),
         db')
    end.

(** The dict [verify_chain] returns, by its ["status"]. *)
Inductive verification : Type :=
| EMPTY_CHAIN
| INVALID_CHAIN (block_id : Z) (expected_previous actual_previous : string)
| VALID_CHAIN (block_count : nat).

Definition valid (v : verification) : bool :=
  match v with
  | EMPTY_CHAIN => true
  | INVALID_CHAIN _ _ _ => false
  | VALID_CHAIN _ => true
  end.

(** [for i in range(1, len(blocks))], over the remaining indices [ix];
    [d] stands for an index out of range, which the loop never reads. *)
Fixpoint verify_loop (d : row) (blocks : list row) (ix : list nat)
  : verification :=
  match ix with
  | [] => VALID_CHAIN (List.length blocks)
  | i :: ix' =>
      let prev_block := nth (i - 1) blocks d in
      let curr_block := nth i blocks d in
      if negb (String.eqb (previous_hash curr_block)
                          (current_hash prev_block))
      then INVALID_CHAIN (id curr_block) (current_hash prev_block)
                         (previous_hash curr_block)
      else verify_loop d blocks ix'
  end.

Definition verify_chain (db : database) : verification :=
  let blocks := select_all db in
  match blocks with
  | [] => EMPTY_CHAIN
  | b0 :: _ => verify_loop b0 blocks (seq 1 (List.length blocks - 1))
  end.

(** A run of calls on one logger object, one after the other. *)
Fixpoint run_calls (self : BlockchainLogger) (db : database) (cs : list call)
  : list (exn + receipt) * BlockchainLogger * database :=
  match cs with
  | [] => ([], self, db)
  | c :: cs' =>
      let '(r, self', db') := create_block self db c in
      let '(rs, self'', db'') := run_calls self' db' cs' in
      (r :: rs, self'', db'')
  end.

Definition receipts (rs : list (exn + receipt)) : list receipt :=
  flat_map (fun r => match r with inr x => [x] | inl _ => [] end) rs.

(* ================================================================= *)
(** ** Calls in flight on one logger object *)

Module Threads.

(** A [create_block] call, by the point it has reached: not started;
    [self.chain] read and the hash computed (lines 43-59); row inserted
    and committed (lines 61-69); returned after storing the new tail
    (lines 71-79); or left by an exception. *)
Inductive thread : Type :=
| Called (c : call)
| Hashed (c : call) (previous_hash current_hash : string)
| Committed (c : call) (lastrowid : Z) (previous_hash current_hash : string)
| Returned (r : receipt)
| Raised (e : exn).

(** One thread runs up to its next point; the logger object and the
    database are shared by all threads. *)
Definition step (self : BlockchainLogger) (db : database) (t : thread)
  : thread * BlockchainLogger * database :=
  match t with
  | Called c =>
      let previous_hash := cached_previous self in
      (Hashed c previous_hash (block_hash previous_hash c), self, db)
  | Hashed c previous_hash current_hash =>
      if storage_fails c then (Raised OperationalError, self, db)
      else
        match insert_block db previous_hash current_hash (utcnow c)
                (arg_data_type c) (arg_sensor_id c) (arg_fund_id c)
                (arg_anomaly_type c) (arg_severity c)
                (dumps false (arg_data c)) with
        | inl e => (Raised e, self, db)
        | inr (lastrowid, db') =>
            (Committed c lastrowid previous_hash current_hash, self, db')
        end
  | Committed c lastrowid previous_hash current_hash =>
      (Returned (mkReceipt lastrowid previous_hash current_hash (utcnow c)
                           "VERIFIED"),
       mkLogger (Some (Appended lastrowid previous_hash current_hash)),
       db)
  | Returned _ | Raised _ => (t, self, db)
  end.

Fixpoint set_nth {A : Type} (i : nat) (x : A) (l : list A) : list A :=
  match l, i with
  | [], _ => []
  | _ :: l', O => x :: l'
  | y :: l', S i' => y :: set_nth i' x l'
  end.

(** An interleaving: the thread that moves at each turn. *)
Fixpoint run_schedule (sched : list nat) (self : BlockchainLogger)
    (db : database) (pool : list thread)
  : list thread * BlockchainLogger * database :=
  match sched with
  | [] => (pool, self, db)
  | i :: sched' =>
      match nth_error pool i with
      | None => run_schedule sched' self db pool
      | Some t =>
          let '(t', self', db') := step self db t in
          run_schedule sched' self' db' (set_nth i t' pool)
      end
  end.

(** The interleaving in which every call runs from start to end before
    the next one starts. *)
Definition serial_from (first count : nat) : list nat :=
  flat_map (fun i => [i; i; i]) (seq first count).

Definition outcome (r : exn + receipt) : thread :=
  match r with
  | inl e => Raised e
  | inr x => Returned x
  end.

End Threads.

(* ================================================================= *)
(** ** The verifier and the record equality the specification words *)

Module Spec.

(** The scan of the Integrity Verifier: [expected_previous] is compared
    with each block in turn and then moved to that block's digest. *)
Fixpoint scan (expected_previous : string) (block_count : nat)
    (blocks : list row) : verification :=
  match blocks with
  | [] => VALID_CHAIN block_count
  | b :: rest =>
      if negb (String.eqb (previous_hash b) expected_previous)
      then INVALID_CHAIN (id b) expected_previous (previous_hash b)
      else scan (current_hash b) block_count rest
  end.

(** [verify()]: the scan started at the genesis sentinel. *)
Definition verify (db : database) : verification :=
  match select_all db with
  | [] => EMPTY_CHAIN
  | b :: rest => scan genesis (List.length (b :: rest)) (b :: rest)
  end.

(** The digest deep-verify recomputes from the stored fields of a row;
    [payload] is the value the stored [data] text decodes to. *)
Definition recomputed_hash (r : row) (payload : json) : string :=
  block_hash (previous_hash r)
    (mkCall (timestamp r) false (data_type r) (sensor_id r) (fund_id r)
            (anomaly_type r) (severity r) payload).

(** The same logical record: equal up to the order in which the members
    of each dict were inserted. *)
Unset Elimination Schemes.
Inductive same_record : json -> json -> Prop :=
| same_refl v : same_record v v
| same_list xs ys :
    Forall2 same_record xs ys -> same_record (JList xs) (JList ys)
| same_dict items reordered items' :
    NoDup (map fst items) ->
    Permutation items reordered ->
    Forall2 (fun a b => fst a = fst b /\ same_record (snd a) (snd b))
            reordered items' ->
    same_record (JDict items) (JDict items').
Set Elimination Schemes.

End Spec.

(* ================================================================= *)
(** ** States of the ledger *)

(** What a logger and its database file can be after the class alone has
    worked on a new file: calls on one logger object, one at a time, and
    a new logger object opened on the file in place of the old one. *)
Inductive reachable : BlockchainLogger -> database -> Prop :=
| reach_new :
    reachable (fst (new_logger None)) (snd (new_logger None))
| reach_call self db c :
    reachable self db ->
    reachable (snd (fst (create_block self db c)))
              (snd (create_block self db c))
| reach_reopen self db :
    reachable self db ->
    reachable (fst (new_logger (Some db))) db.

(** Each row names its predecessor's digest, the first one names [h]. *)
Fixpoint linked_from (h : string) (rows : list row) : Prop :=
  match rows with
  | [] => True
  | r :: rest => previous_hash r = h /\ linked_from (current_hash r) rest
  end.

Definition tail_hash (rows : list row) : string :=
  match rev rows with
  | [] => genesis
  | r :: _ => current_hash r
  end.

Definition numbered (db : database) : Prop :=
  map id (blocks db) = map Z.of_nat (seq 1 (List.length (blocks db)))
  /\ sqlite_sequence db = Z.of_nat (List.length (blocks db)).

(** The row a successful call stores. *)
Definition appended_row (rowid : Z) (previous_hash : string) (c : call)
  : row :=
  mkRow rowid previous_hash (block_hash previous_hash c) (utcnow c)
        (arg_data_type c) (arg_sensor_id c) (arg_fund_id c)
        (arg_anomaly_type c) (arg_severity c) (dumps false (arg_data c)).

(** The row id the next INSERT is given. *)
Definition next_rowid (db : database) : Z :=
  Z.max (sqlite_sequence db) (largest_id (blocks db)) + 1.

(** The cached tail names the last stored row. *)
Definition consistent (self : BlockchainLogger) (db : database) : Prop :=
  numbered db
  /\ cached_previous self = tail_hash (blocks db)
  /\ (blocks db = [] -> chain self = None).

Definition links (b : row) : Z * string * string :=
  (id b, previous_hash b, current_hash b).

Definition receipt_links (x : receipt) : Z * string * string :=
  (block_id x, r_previous_hash x, r_current_hash x).

(** Rows that agree on the three columns [verify_chain] reads. *)
Definition same_links (r r' : row) : Prop :=
  id r = id r' /\ previous_hash r = previous_hash r'
  /\ current_hash r = current_hash r'.

(** Any number of logger objects over one database file.  The first one
    creates the table; every other one is opened on the file as it is
    then ([load_chain] runs in [__init__] only); calls run one at a time,
    on any of the objects. *)
Inductive shared : list BlockchainLogger -> database -> Prop :=
| shared_new :
    shared [fst (new_logger None)] (snd (new_logger None))
| shared_open loggers db :
    shared loggers db ->
    shared (loggers ++ [fst (new_logger (Some db))]) db
| shared_call loggers db i self c :
    shared loggers db ->
    nth_error loggers i = Some self ->
    shared (Threads.set_nth i (snd (fst (create_block self db c))) loggers)
           (snd (create_block self db c)).

(** The digest held in [self.chain] is the one [load_chain] would fetch
    from the file now. *)
Definition fresh (self : BlockchainLogger) (db : database) : Prop :=
  cached_previous self = cached_previous (mkLogger (load_chain db)).

(** A call between its read of [self.chain] (line 45) and its assignment
    to [self.chain] (line 71). *)
Definition in_critical (t : Threads.thread) : bool :=
  match t with
  | Threads.Hashed _ _ _ | Threads.Committed _ _ _ _ => true
  | _ => false
  end.

Definition in_flight (pool : list Threads.thread) : nat :=
  List.length (filter in_critical pool).

(** After every turn of the schedule at most one call is between its
    read of [self.chain] and its assignment to it: the runs a lock around
    the body of [create_block] would allow. *)
Definition one_at_a_time (sched : list nat) (self : BlockchainLogger)
    (db : database) (pool : list Threads.thread) : bool :=
  forallb
    (fun n =>
       (in_flight
          (fst (fst (Threads.run_schedule (firstn n sched) self db pool)))
        <=? 1)%nat)
    (seq 0 (S (List.length sched))).

(** A call whose INSERT is committed. *)
Definition committed (t : Threads.thread) : bool :=
  match t with
  | Threads.Committed _ _ _ _ | Threads.Returned _ => true
  | _ => false
  end.

(** The row a committed call names is in the table. *)
Definition recorded (db : database) (t : Threads.thread) : Prop :=
  match t with
  | Threads.Committed _ lastrowid previous_hash current_hash =>
      exists b, In b (blocks db)
                /\ links b = (lastrowid, previous_hash, current_hash)
  | Threads.Returned r =>
      exists b, In b (blocks db) /\ links b = receipt_links r
  | _ => True
  end.

(** What a call in flight holds, when calls run one at a time: the
    digest a call has read is the last stored one and so is the cached
    one; the digest a call has stored is the last stored one. *)
Definition in_step (self : BlockchainLogger) (db : database)
    (t : Threads.thread) : Prop :=
  match t with
  | Threads.Hashed _ previous_hash _ =>
      previous_hash = tail_hash (blocks db)
      /\ cached_previous self = tail_hash (blocks db)
  | Threads.Committed _ _ _ current_hash =>
      current_hash = tail_hash (blocks db)
  | _ => True
  end.

(* ================================================================= *)
(** ** Concrete ledgers *)

Module Scenario.

Import Threads.
Local Open Scope string_scope.

(** The two events of [test_blockchain]. *)
Definition water_call : call :=
  mkCall "2024-05-01T10:00:00.000001" false
    (ustr "WATER_ANOMALY") (Some (ustr "node_001")) None
    (Some (ustr "LOW_PH")) (ustr "HIGH")
    (JDict [ (ustr "sensor_id", JStr (ustr "node_001"));
             (ustr "timestamp", JStr (ustr "2024-05-01T09:59:59.500000"));
             (ustr "anomalies",
              JList [JList [JStr (ustr "LOW_PH"); JFloat "5.8";
                            JStr (ustr "pH below limit")]]);
             (ustr "severity", JStr (ustr "HIGH")) ]).

Definition fund_call : call :=
  mkCall "2024-05-01T10:00:00.000002" false
    (ustr "FUND_ANOMALY") None (Some (ustr "FUND_7890"))
    (Some (ustr "HIGH_DISCREPANCY")) (ustr "CRITICAL")
    (JDict [ (ustr "fund_id", JStr (ustr "FUND_7890"));
             (ustr "timestamp", JStr (ustr "2024-05-01T09:59:59.600000"));
             (ustr "anomalies",
              JList [JList [JStr (ustr "HIGH_DISCREPANCY"); JFloat "0.45";
                            JStr (ustr "45% discrepancy")]]);
             (ustr "severity", JStr (ustr "CRITICAL")) ]).

(** The payload of [water_call] built in another insertion order. *)
Definition water_payload_reordered : json :=
  JDict [ (ustr "timestamp", JStr (ustr "2024-05-01T09:59:59.500000"));
          (ustr "anomalies",
           JList [JList [JStr (ustr "LOW_PH"); JFloat "5.8";
                         JStr (ustr "pH below limit")]]);
          (ustr "severity", JStr (ustr "HIGH"));
          (ustr "sensor_id", JStr (ustr "node_001")) ].

(** The record of [water_call] after the genesis block, its members in
    another order and with the reordered payload. *)
Definition water_record_reordered : json :=
  JDict [ (ustr "timestamp", JStr (ustr (utcnow water_call)));
          (ustr "data_type", JStr (arg_data_type water_call));
          (ustr "sensor_id", of_optional (arg_sensor_id water_call));
          (ustr "fund_id", of_optional (arg_fund_id water_call));
          (ustr "anomaly_type", of_optional (arg_anomaly_type water_call));
          (ustr "severity", JStr (arg_severity water_call));
          (ustr "data", water_payload_reordered);
          (ustr "previous_hash", JStr (ustr genesis)) ].

(** A logger opened on a new file. *)
Definition logger0 : BlockchainLogger := fst (new_logger None).
Definition db0 : database := snd (new_logger None).

(** The file after the water event, and after both events. *)
Definition logged1 := run_calls logger0 db0 [water_call].
Definition logged2 := run_calls logger0 db0 [water_call; fund_call].
Definition db1 : database := snd logged1.
Definition db2 : database := snd logged2.

(** [UPDATE blocks SET ... WHERE id = rowid], run on the file directly. *)
Definition update_where (rowid : Z) (f : row -> row) (db : database)
  : database :=
  mkDb (map (fun r => if Z.eqb (id r) rowid then f r else r) (blocks db))
       (sqlite_sequence db).

Definition set_previous_hash (h : string) (r : row) : row :=
  mkRow (id r) h (current_hash r) (timestamp r) (data_type r) (sensor_id r)
        (fund_id r) (anomaly_type r) (severity r) (data r).

Definition set_severity (v : pystr) (r : row) : row :=
  mkRow (id r) (previous_hash r) (current_hash r) (timestamp r)
        (data_type r) (sensor_id r) (fund_id r) (anomaly_type r) v (data r).

Definition forged_hash : string := string_of_list_ascii (repeat "f"%char 64).

(** The first block's [previous_hash] overwritten in storage. *)
Definition relinked_db : database :=
  update_where 1 (set_previous_hash forged_hash) db1.

(** The first block's [severity] overwritten in storage. *)
Definition edited_db : database :=
  update_where 1 (set_severity (ustr "LOW")) db2.

(** Two calls on one logger object that take turns. *)
Definition racing : list nat := [0; 1; 0; 1; 0; 1]%nat.
Definition raced :=
  run_schedule racing logger0 db0 [Called water_call; Called fund_call].

(** A later event. *)
Definition later_call : call :=
  mkCall "2024-05-01T10:00:05.000000" false
    (ustr "WATER_ANOMALY") (Some (ustr "node_002")) None None (ustr "LOW")
    JNull.

End Scenario.

(* ================================================================= *)
(** ** Python values at run time *)

Module Py.

Inductive error : Type :=
| IndexError
| KeyError
| TypeError
| OverflowError.

Fixpoint str_eqb (a b : pystr) : bool :=
  match a, b with
  | [], [] => true
  | x :: a', y :: b' => N.eqb x y && str_eqb a' b'
  | _, _ => false
  end.

(** The value a dict with [str] keys holds under [key]. *)
Fixpoint lookup (d : list (pystr * json)) (key : pystr) : option json :=
  match d with
  | [] => None
  | (k, v) :: d' => if str_eqb k key then Some v else lookup d' key
  end.

(** [d.get(key, default)]; [d.get(key)] is [get d key JNull]. *)
Definition get (d : list (pystr * json)) (key : pystr) (default : json)
  : json :=
  match lookup d key with
  | Some v => v
  | None => default
  end.

(** The truth value of an object.  A float is false when it is zero,
    which [float.__repr__] writes [0.0] or [-0.0]. *)
Definition truthy (v : json) : bool :=
  match v with
  | JNull => false
  | JBool b => b
  | JInt n => negb (n =? 0)
  | JFloat r => negb (String.eqb r "0.0" || String.eqb r "-0.0")
  | JStr s => match s with [] => false | _ :: _ => true end
  | JList xs => match xs with [] => false | _ :: _ => true end
  | JDict items => match items with [] => false | _ :: _ => true end
  end.

(** [v[0]]: the first element of a list or tuple, the first character of
    a [str]; a dict with [str] keys has no key [0]; the other objects
    cannot be subscripted. *)
Definition item0 (v : json) : error + json :=
  match v with
  | JList (x :: _) => inr x
  | JList [] => inl IndexError
  | JStr (c :: _) => inr (JStr [c])
  | JStr [] => inl IndexError
  | JDict _ => inl KeyError
  | JNull | JBool _ | JInt _ | JFloat _ => inl TypeError
  end.

End Py.

(* ================================================================= *)
(** ** BlockchainLogger: the two logging methods and the recent logs *)

(** What a method of the logger raises: an exception of the interpreter
    or one of sqlite3. *)
Inductive raised : Type :=
| PyError (e : Py.error)
| SqliteError (e : exn).

Definition lift_result (r : exn + receipt) : raised + receipt :=
  match r with
  | inl e => inl (SqliteError e)
  | inr x => inr x
  end.

(** A value bound to a nullable TEXT column: [None] or a [str].  The
    other objects (numbers, lists, dicts) are outside the rows modelled. *)
Definition text_or_null (v : json) : option (option pystr) :=
  match v with
  | JNull => Some None
  | JStr s => Some (Some s)
  | _ => None
  end.

Definition text (v : json) : option pystr :=
  match v with
  | JStr s => Some s
  | _ => None
  end.

(** [anomaly_data.get("anomalies", [{}])[0][0]
     if anomaly_data.get("anomalies") else None] *)
Definition first_anomaly (anomaly_data : list (pystr * json))
  : Py.error + json :=
  if Py.truthy (Py.get anomaly_data (ustr "anomalies") JNull)
  then
    match Py.item0 (Py.get anomaly_data (ustr "anomalies")
                           (JList [JDict []])) with
    | inl e => inl e
    | inr first => Py.item0 first
    end
  else inr JNull.

(** [log_water_anomaly]: the keyword arguments are evaluated in the order
    written, then [create_block] runs.  [now] and [storage_fails] are
    what the call observes, as in [call].  The result is [None] when a
    value bound to a column is neither [None] nor a [str] (a [str] for
    the severity): such rows are outside the rows modelled. *)
Definition log_water_anomaly (self : BlockchainLogger) (db : database)
    (now : string) (storage_fails : bool)
    (anomaly_data : list (pystr * json))
  : option ((raised + receipt) * BlockchainLogger * database) :=
  let sensor_id := Py.get anomaly_data (ustr "sensor_id") JNull in
  match first_anomaly anomaly_data with
  | inl e => Some (inl (PyError e), self, db)
  | inr anomaly_type =>
      let severity := Py.get anomaly_data (ustr "severity")
                             (JStr (ustr "LOW")) in
      match text_or_null sensor_id, text_or_null anomaly_type,
            text severity with
      | Some sensor_id, Some anomaly_type, Some severity =>
          let '(r, self', db') :=
            create_block self db
              (mkCall now storage_fails (ustr "WATER_ANOMALY")
                      sensor_id None anomaly_type severity
                      (JDict anomaly_data)) in
          Some (lift_result r, self', db')
      | _, _, _ => None
      end
  end.

Definition log_fund_anomaly (self : BlockchainLogger) (db : database)
    (now : string) (storage_fails : bool)
    (anomaly_data : list (pystr * json))
  : option ((raised + receipt) * BlockchainLogger * database) :=
  let fund_id := Py.get anomaly_data (ustr "fund_id") JNull in
  match first_anomaly anomaly_data with
  | inl e => Some (inl (PyError e), self, db)
  | inr anomaly_type =>
      let severity := Py.get anomaly_data (ustr "severity")
                             (JStr (ustr "LOW")) in
      match text_or_null fund_id, text_or_null anomaly_type,
            text severity with
      | Some fund_id, Some anomaly_type, Some severity =>
          let '(r, self', db') :=
            create_block self db
              (mkCall now storage_fails (ustr "FUND_ANOMALY")
                      None fund_id anomaly_type severity
                      (JDict anomaly_data)) in
          Some (lift_result r, self', db')
      | _, _, _ => None
      end
  end.

(** One dict of the list [get_recent_logs] returns. *)
Record log_entry : Type := mkLog {
  log_id : Z;
  log_previous_hash : string;
  log_current_hash : string;
  log_timestamp : string;
  log_data_type : pystr;
  log_sensor_id : option pystr;
  log_fund_id : option pystr;
  log_anomaly_type : option pystr;
  log_severity : pystr }.

Definition log_of_row (log : row) : log_entry :=
  mkLog (id log) (previous_hash log) (current_hash log) (timestamp log)
        (data_type log) (sensor_id log) (fund_id log) (anomaly_type log)
        (severity log).

(** [LIMIT ?]: a negative limit is no limit. *)
Definition sql_limit {A : Type} (limit : Z) (rows : list A) : list A :=
  if limit <? 0 then rows else firstn (Z.to_nat limit) rows.

(** [SELECT * FROM blocks ORDER BY id DESC LIMIT ?] *)
Definition select_recent (db : database) (limit : Z) : list row :=
  sql_limit limit (rev (order_by_id (blocks db))).

(** [get_recent_logs(limit)].  An [int] that does not fit SQLite's 64-bit
    integers cannot be bound (OverflowError); a failing sqlite3 call
    raises to the caller. *)
Definition get_recent_logs (db : database) (storage_fails : bool)
    (limit : Z) : raised + list log_entry :=
  if storage_fails then inl (SqliteError OperationalError)
  else if (limit <? - max_rowid - 1) || (max_rowid <? limit)
  then inl (PyError Py.OverflowError)
  else inr (map log_of_row (select_recent db limit)).

(** Ledgers written through the two logging methods only, on one logger
    over a new file. *)
Inductive logged : BlockchainLogger -> database -> Prop :=
| logged_new :
    logged (fst (new_logger None)) (snd (new_logger None))
| logged_water self db now storage_fails anomaly_data r self' db' :
    logged self db ->
    log_water_anomaly self db now storage_fails anomaly_data
    = Some (r, self', db') ->
    logged self' db'
| logged_fund self db now storage_fails anomaly_data r self' db' :
    logged self db ->
    log_fund_anomaly self db now storage_fails anomaly_data
    = Some (r, self', db') ->
    logged self' db'.

(** Overwriting a row's digest in storage. *)
Definition set_current_hash (h : string) (r : row) : row :=
  mkRow (id r) (previous_hash r) h (timestamp r) (data_type r) (sensor_id r)
        (fund_id r) (anomaly_type r) (severity r) (data r).

(** Every row after the first names the digest of the row before it. *)
Definition all_linked (rows : list row) : Prop :=
  forall i p b,
    nth_error rows i = Some p -> nth_error rows (S i) = Some b ->
    previous_hash b = current_hash p.

(** The digest the next row has to name after [rows], [h] if there are
    none. *)
Definition last_hash (h : string) (rows : list row) : string :=
  match rev rows with
  | [] => h
  | r :: _ => current_hash r
  end.


(* ================================================================= *)
(** ** dashboard.py: the readers of the table *)

Module Dashboard.

(** [self.stats] *)
Record stats : Type := mkStats {
  total_anomalies : Z;
  water_anomalies : Z;
  fund_anomalies : Z;
  critical_count : Z;
  last_update : string }.

(** [SELECT COUNT( * ) FROM blocks WHERE ...] *)
Definition count_where (p : row -> bool) (db : database) : Z :=
  Z.of_nat (List.length (filter p (blocks db))).

Definition is_water (r : row) : bool :=
  Py.str_eqb (data_type r) (ustr "WATER_ANOMALY").
Definition is_fund (r : row) : bool :=
  Py.str_eqb (data_type r) (ustr "FUND_ANOMALY").
Definition is_critical (r : row) : bool :=
  Py.str_eqb (severity r) (ustr "CRITICAL").

(** [GuardianDashboard.update_stats].  The dashboard never creates the
    table: on a file without it ([None]) the first query raises.
    [interrupted = Some k] says that a sqlite3 call raises after [k] of
    the four queries have completed; whatever is raised is swallowed by
    the bare [except], and the entries of [self.stats] assigned until
    then keep their new values.  The file does not change while the
    method runs. *)
Definition update_stats (st : stats) (file : option database)
    (interrupted : option nat) (now : string) : stats :=
  match file with
  | None => st
  | Some db =>
      let k := match interrupted with Some k => k | None => 4%nat end in
      mkStats
        (if (1 <=? k)%nat then count_where (fun _ => true) db
         else total_anomalies st)
        (if (2 <=? k)%nat then count_where is_water db
         else water_anomalies st)
        (if (3 <=? k)%nat then count_where is_fund db
         else fund_anomalies st)
        (if (4 <=? k)%nat then count_where is_critical db
         else critical_count st)
        (if (4 <=? k)%nat then now else last_update st)
  end.

(** The JSON of [/api/blockchain/verify] when no exception is caught. *)
Record chain_report : Type := mkReport {
  block_count : Z;
  integrity_issues : Z;
  chain_valid : bool;
  report_timestamp : string }.

(** [SELECT COUNT( * ) FROM blocks b1 JOIN blocks b2 ON b1.id = b2.id - 1
     WHERE b1.current_hash != b2.previous_hash] *)
Definition count_issues (db : database) : Z :=
  Z.of_nat
    (List.length
       (filter (fun b12 : row * row =>
                  let (b1, b2) := b12 in
                  (id b1 =? id b2 - 1)
                  && negb (String.eqb (current_hash b1) (previous_hash b2)))
               (list_prod (blocks db) (blocks db)))).

(** [verify_blockchain]: [None] is the answer with the only key [error],
    given when anything raises. *)
Definition verify_blockchain (file : option database) (storage_fails : bool)
    (now : string) : option chain_report :=
  match file with
  | None => None
  | Some db =>
      if storage_fails then None
      else
        let issues := count_issues db in
        Some (mkReport (count_where (fun _ => true) db) issues
                       (issues =? 0) now)
  end.

End Dashboard.

(* ================================================================= *)
(** ** The rows of the two-block ledger *)

Module Sample.

Import Scenario.

(** The rows [test_blockchain] stores: the water event, then the fund
    event. *)
Definition first_row : row := appended_row 1 genesis water_call.
Definition second_row : row :=
  appended_row 2 (block_hash genesis water_call) fund_call.

(** The reports the two events were logged from. *)
Definition water_report : list (pystr * json) :=
  match arg_data water_call with
  | JDict items => items
  | _ => []
  end.

Definition fund_report : list (pystr * json) :=
  match arg_data fund_call with
  | JDict items => items
  | _ => []
  end.

End Sample.

(* ================================================================= *)
(** ** anomaly_detector.py: the water detector *)

Module Detector.




(** [a < b] on numbers, exact as Python's comparison of finite ints and
    floats is. *)
Definition less (a b : QArith_base.Q) : bool :=
  negb (QArith_base.Qle_bool b a).




(** [hash_data]: the first 16 characters of the digest of the sorted
    JSON text. *)
Definition hash_data (data : list (pystr * json)) : string :=
  let data_str := dumps true (JDict data) in
  String.substring 0 16 (Sha256.hexdigest data_str).






End Detector.

(* ================================================================= *)
(** * Properties *)

(** ** The order on keys and the sorted members of a dict *)

Section KeyOrder.

Lemma pystr_leb_total (a b : pystr) :
  pystr_leb a b = false -> pystr_leb b a = true.
Proof.
  revert b; induction a as [|x a IH]; intros [|y b]; simpl; try discriminate;
    auto.
  destruct (N.ltb_spec x y), (N.eqb_spec x y), (N.ltb_spec y x),
    (N.eqb_spec y x); try discriminate; try lia; auto.
Qed.

Lemma pystr_leb_antisym (a b : pystr) :
  pystr_leb a b = true -> pystr_leb b a = true -> a = b.
Proof.
  revert b; induction a as [|x a IH]; intros [|y b]; simpl; try discriminate;
    auto.
  destruct (N.ltb_spec x y), (N.eqb_spec x y), (N.ltb_spec y x),
    (N.eqb_spec y x); try discriminate; try lia.
  intros; subst; f_equal; auto.
Qed.

Lemma pystr_leb_trans (a b c : pystr) :
  pystr_leb a b = true -> pystr_leb b c = true -> pystr_leb a c = true.
Proof.
  revert b c; induction a as [|x a IH]; intros [|y b] [|z c]; simpl;
    try discriminate; auto.
  destruct (N.ltb_spec x y), (N.eqb_spec x y), (N.ltb_spec y z),
    (N.eqb_spec y z), (N.ltb_spec x z), (N.eqb_spec x z);
    try discriminate; try lia; auto.
  intros; eapply IH; eauto.
Qed.

Context {A : Type}.
Implicit Types (a b : pystr * A) (l : list (pystr * A)).

Lemma insert_item_comm a b l :
  fst a <> fst b ->
  insert_item a (insert_item b l) = insert_item b (insert_item a l).
Proof.
  intros Hab. induction l as [|x l IH]; simpl.
  - destruct (pystr_leb (fst a) (fst b)) eqn:E1,
             (pystr_leb (fst b) (fst a)) eqn:E2; auto.
    + exfalso; eauto using pystr_leb_antisym.
    + apply pystr_leb_total in E1; congruence.
  - destruct (pystr_leb (fst b) (fst x)) eqn:Ebx,
             (pystr_leb (fst a) (fst x)) eqn:Eax; simpl;
      rewrite ?Ebx, ?Eax;
      destruct (pystr_leb (fst a) (fst b)) eqn:E1,
               (pystr_leb (fst b) (fst a)) eqn:E2; auto;
      try (exfalso; eauto using pystr_leb_antisym; fail);
      try (apply pystr_leb_total in E1; congruence);
      try (pose proof (pystr_leb_trans _ _ _ E1 Ebx); congruence);
      try (pose proof (pystr_leb_trans _ _ _ E2 Eax); congruence);
      try (f_equal; exact IH).
Qed.

Lemma sorted_items_perm l l' :
  Permutation l l' -> NoDup (map fst l) -> sorted_items l = sorted_items l'.
Proof.
  induction 1 as [|x l l' HP IH|x y l|l l' l'' HP1 IH1 HP2 IH2];
    intros ND; simpl in *.
  - reflexivity.
  - inversion ND; subst. f_equal; auto.
  - inversion ND as [|? ? Hy ND']; subst. apply insert_item_comm.
    intros E. apply Hy. left. auto.
  - rewrite IH1 by assumption. apply IH2.
    eapply Permutation_NoDup; [apply Permutation_map; exact HP1 | exact ND].
Qed.

End KeyOrder.

(** ** json.dumps with sort_keys does not see insertion order *)

Lemma dumps_list (sort_keys : bool) (xs : list json) :
  dumps sort_keys (JList xs)
  = ("[" ++ String.concat ", " (map (dumps sort_keys) xs) ++ "]")%string.
Proof. reflexivity. Qed.

Lemma dumps_dict_sorted (items : list (pystr * json)) :
  dumps true (JDict items)
  = ("{" ++ String.concat ", "
              (map render_item (sorted_items (encode_members true items)))
         ++ "}")%string.
Proof. reflexivity. Qed.

Lemma dumps_same_record (v v' : json) :
  Spec.same_record v v' -> dumps true v = dumps true v'.
Proof.
  revert v v'. fix IH 3. intros v v' H.
  destruct H as [v|xs ys H|items reordered items' ND HP H].
  - reflexivity.
  - rewrite !dumps_list.
    assert (E : map (dumps true) xs = map (dumps true) ys).
    { revert xs ys H. fix IHl 3.
      intros xs ys [|x y xs' ys' Hxy Hrest]; simpl.
      - reflexivity.
      - f_equal; [apply IH, Hxy | apply IHl, Hrest]. }
    rewrite E. reflexivity.
  - rewrite !dumps_dict_sorted.
    assert (E : encode_members true reordered = encode_members true items').
    { clear ND HP. revert reordered items' H. fix IHl 3.
      intros xs ys [|[k x] [k' y] xs' ys' [Hk Hxy] Hrest]; simpl.
      - reflexivity.
      - simpl in Hk; subst k'. f_equal.
        + f_equal. apply IH, Hxy.
        + apply IHl, Hrest. }
    rewrite <- E.
    rewrite (sorted_items_perm (encode_members true items)
                               (encode_members true reordered)).
    + reflexivity.
    + apply Permutation_map, HP.
    + unfold encode_members. rewrite map_map.
      erewrite map_ext; [exact ND|]. intros [k x]; reflexivity.
Qed.

(** ** The width of a digest *)

Lemma digest_bytes_length (msg : list Z) :
  List.length (Sha256.digest_bytes msg) = 32%nat.
Proof.
  unfold Sha256.digest_bytes. destruct (Sha256.digest msg). reflexivity.
Qed.

Lemma hexdigest_length (s : string) :
  String.length (Sha256.hexdigest s) = 64%nat.
Proof.
  unfold Sha256.hexdigest, Sha256.digest_bytes.
  destruct (Sha256.digest (Sha256.encode s)). reflexivity.
Qed.

(** ** ORDER BY id on a table stored in key order *)

Lemma order_by_id_sorted (rows : list row) :
  Sorted Z.lt (map id rows) -> order_by_id rows = rows.
Proof.
  induction rows as [|r rows IH]; intros HS.
  - reflexivity.
  - inversion HS as [|? ? HS' Hd]; subst.
    change (order_by_id (r :: rows)) with (insert_by_id r (order_by_id rows)).
    rewrite IH by assumption.
    destruct rows as [|r' rows']; simpl in *.
    + reflexivity.
    + inversion Hd; subst.
      destruct (Z.leb_spec (id r) (id r')); [reflexivity | lia].
Qed.

Lemma sorted_from (s n : nat) : Sorted Z.lt (map Z.of_nat (seq s n)).
Proof.
  revert s; induction n as [|n IH]; intros s; simpl; constructor.
  - apply IH.
  - destruct n; simpl; constructor. lia.
Qed.

Lemma largest_from (s n : nat) :
  (1 <= s)%nat ->
  fold_right Z.max 0 (map Z.of_nat (seq s n)) <= Z.of_nat (s + n) - 1.
Proof.
  revert s; induction n as [|n IH]; intros s Hs; simpl.
  - lia.
  - specialize (IH (S s)). lia.
Qed.

Lemma numbered_select_all (db : database) :
  numbered db -> select_all db = blocks db.
Proof.
  intros [Hid _]. apply order_by_id_sorted. rewrite Hid. apply sorted_from.
Qed.

Lemma numbered_largest (db : database) :
  numbered db ->
  Z.max (sqlite_sequence db) (largest_id (blocks db))
  = Z.of_nat (List.length (blocks db)).
Proof.
  intros [Hid Hseq]. unfold largest_id. rewrite Hid, Hseq.
  pose proof (largest_from 1 (List.length (blocks db))). lia.
Qed.

(** ** The loop of verify_chain is the scan started at the first row *)

Lemma verify_loop_scan (d : row) (rest pre : list row) (b : row) :
  verify_loop d (pre ++ b :: rest)
              (seq (S (List.length pre)) (List.length rest))
  = Spec.scan (current_hash b) (List.length (pre ++ b :: rest)) rest.
Proof.
  revert pre b; induction rest as [|c rest IH]; intros pre b.
  - reflexivity.
  - assert (Hp : nth (S (List.length pre) - 1) (pre ++ b :: c :: rest) d = b).
    { rewrite app_nth2 by lia.
      replace (S (List.length pre) - 1 - List.length pre)%nat with 0%nat
        by lia.
      reflexivity. }
    assert (Hc : nth (S (List.length pre)) (pre ++ b :: c :: rest) d = c).
    { rewrite app_nth2 by lia.
      replace (S (List.length pre) - List.length pre)%nat with 1%nat by lia.
      reflexivity. }
    cbn [List.length seq verify_loop Spec.scan]. rewrite Hp, Hc.
    destruct (negb (previous_hash c =? current_hash b)%string);
      [reflexivity|].
    specialize (IH (pre ++ [b]) c).
    rewrite <- app_assoc in IH. cbn [app] in IH.
    rewrite length_app in IH. cbn [List.length] in IH.
    rewrite Nat.add_1_r in IH. exact IH.
Qed.

Lemma verify_chain_scan (db : database) :
  verify_chain db
  = match select_all db with
    | [] => EMPTY_CHAIN
    | b :: rest =>
        Spec.scan (previous_hash b) (List.length (b :: rest)) (b :: rest)
    end.
Proof.
  unfold verify_chain. destruct (select_all db) as [|b rest]; [reflexivity|].
  cbn [Spec.scan]. rewrite String.eqb_refl. cbn [negb].
  cbn [List.length]. rewrite Nat.sub_succ, Nat.sub_0_r.
  apply (verify_loop_scan b rest [] b).
Qed.

Lemma scan_valid (h : string) (n : nat) (rows : list row) :
  linked_from h rows <-> valid (Spec.scan h n rows) = true.
Proof.
  revert h; induction rows as [|r rows IH]; intros h; simpl.
  - tauto.
  - destruct (String.eqb_spec (previous_hash r) h) as [E|E]; simpl.
    + rewrite <- IH. tauto.
    + split; [intros [? _]; contradiction | discriminate].
Qed.

(** ** One call of create_block *)

Lemma create_block_inr self db c r self' db' :
  create_block self db c = (inr r, self', db') ->
  storage_fails c = false
  /\ next_rowid db <= max_rowid
  /\ existsb (fun b => String.eqb (current_hash b)
                         (block_hash (cached_previous self) c))
             (blocks db) = false
  /\ r = mkReceipt (next_rowid db) (cached_previous self)
                   (block_hash (cached_previous self) c) (utcnow c)
                   "VERIFIED"
  /\ self' = mkLogger (Some (Appended (next_rowid db) (cached_previous self)
                               (block_hash (cached_previous self) c)))
  /\ db' = mkDb (blocks db ++
                   [appended_row (next_rowid db) (cached_previous self) c])
                (next_rowid db).
Proof.
  unfold create_block, insert_block, next_rowid, appended_row.
  destruct (storage_fails c); [discriminate|].
  destruct (Z.ltb_spec max_rowid
              (Z.max (sqlite_sequence db) (largest_id (blocks db)) + 1))
    as [Hfull|Hfree]; [discriminate|].
  destruct (existsb _ (blocks db)) eqn:E; [discriminate|].
  intros Hret; inversion Hret; subst. repeat split; auto.
Qed.

Lemma create_block_inl self db c e self' db' :
  create_block self db c = (inl e, self', db') -> self' = self /\ db' = db.
Proof.
  unfold create_block, insert_block.
  destruct (storage_fails c); [intros H; inversion H; auto|].
  destruct (max_rowid <? _); [intros H; inversion H; auto|].
  destruct (existsb _ (blocks db)); intros H; inversion H; auto.
Qed.

Lemma run_calls_cons self db c cs :
  run_calls self db (c :: cs)
  = let '(r, self1, db1) := create_block self db c in
    let '(rs, self2, db2) := run_calls self1 db1 cs in
    (r :: rs, self2, db2).
Proof. reflexivity. Qed.

Lemma receipts_cons r rs : receipts (r :: rs) = receipts [r] ++ receipts rs.
Proof. unfold receipts. simpl. rewrite app_nil_r. reflexivity. Qed.

(** Splits the run [H] of [c :: cs] into the first call and the rest. *)
Ltac split_run H r self1 db1 rs E1 E2 :=
  rewrite run_calls_cons in H;
  destruct (create_block _ _ _) as [[r self1] db1] eqn:E1;
  destruct (run_calls self1 db1 _) as [[rs ?self2] ?db2] eqn:E2;
  inversion H; subst; clear H.

(** ** Runs of one writer *)

Lemma run_calls_appends cs : forall self db rs self' db',
  run_calls self db cs = (rs, self', db') ->
  exists appended,
    blocks db' = blocks db ++ appended
    /\ linked_from (cached_previous self) appended
    /\ map links appended = map receipt_links (receipts rs).
Proof.
  induction cs as [|c cs IH]; intros self db rs self' db' H.
  - inversion H; subst. exists []. rewrite app_nil_r. simpl; auto.
  - split_run H r self1 db1 rs1 E1 E2.
    destruct (IH _ _ _ _ _ E2) as (news & Hb & Hl & Hm).
    destruct r as [e|x].
    + apply create_block_inl in E1 as [-> ->].
      exists news. simpl. auto.
    + apply create_block_inr in E1 as (_ & _ & _ & -> & -> & ->).
      exists (appended_row (next_rowid db) (cached_previous self) c :: news).
      simpl in *. rewrite Hb, <- app_assoc. simpl.
      repeat split; auto. unfold receipts in Hm. simpl. rewrite Hm.
      reflexivity.
Qed.

Lemma linked_adjacent (rows : list row) : forall h i p b,
  linked_from h rows ->
  nth_error rows i = Some p -> nth_error rows (S i) = Some b ->
  previous_hash b = current_hash p.
Proof.
  induction rows as [|r rows IH]; intros h i p b HL Hp Hb.
  - destruct i; discriminate.
  - destruct HL as [_ HL]. destruct i as [|i]; simpl in Hp, Hb.
    + inversion Hp; subst. destruct rows as [|r' rows']; [discriminate|].
      inversion Hb; subst. apply HL.
    + eapply IH; eauto.
Qed.

Lemma create_block_numbered self db c r self' db' :
  numbered db ->
  create_block self db c = (r, self', db') ->
  numbered db'
  /\ List.length (blocks db')
     = (List.length (blocks db) + List.length (receipts [r]))%nat.
Proof.
  intros HN H. destruct r as [e|x].
  - apply create_block_inl in H as [-> ->]. simpl. split; [auto | lia].
  - apply create_block_inr in H as (_ & _ & _ & _ & _ & ->).
    unfold next_rowid. rewrite (numbered_largest db HN).
    destruct HN as [Hid Hseq]. unfold numbered. simpl.
    rewrite length_app, map_app, Hid. simpl.
    rewrite Nat.add_1_r, seq_S, map_app. simpl.
    repeat split; try lia. do 2 f_equal. lia.
Qed.

Lemma run_calls_numbered cs : forall self db rs self' db',
  numbered db ->
  run_calls self db cs = (rs, self', db') ->
  numbered db'
  /\ List.length (blocks db')
     = (List.length (blocks db) + List.length (receipts rs))%nat.
Proof.
  induction cs as [|c cs IH]; intros self db rs self' db' HN H.
  - inversion H; subst. simpl. split; [auto | lia].
  - split_run H r self1 db1 rs1 E1 E2.
    destruct (create_block_numbered _ _ _ _ _ _ HN E1) as [HN1 HL1].
    destruct (IH _ _ _ _ _ HN1 E2) as [HN2 HL2].
    split; [auto|]. rewrite HL2, HL1, (receipts_cons r rs1), length_app. lia.
Qed.

Lemma create_block_unique self db c r self' db' :
  NoDup (map current_hash (blocks db)) ->
  create_block self db c = (r, self', db') ->
  NoDup (map current_hash (blocks db')).
Proof.
  intros ND H. destruct r as [e|x].
  - apply create_block_inl in H as [-> ->]. auto.
  - apply create_block_inr in H as (_ & _ & Hex & _ & _ & ->). simpl.
    rewrite map_app. simpl.
    apply NoDup_app_remove_l with (l := []). simpl.
    eapply Permutation_NoDup; [apply Permutation_cons_append|].
    constructor; auto. intros Hin. apply in_map_iff in Hin as (b & Hb & Hin).
    assert (existsb (fun b => String.eqb (current_hash b)
                       (block_hash (cached_previous self) c))
                    (blocks db) = true) as Hc.
    { apply existsb_exists. exists b. split; auto.
      rewrite Hb. apply String.eqb_refl. }
    congruence.
Qed.

Lemma run_calls_unique cs : forall self db rs self' db',
  NoDup (map current_hash (blocks db)) ->
  run_calls self db cs = (rs, self', db') ->
  NoDup (map current_hash (blocks db')).
Proof.
  induction cs as [|c cs IH]; intros self db rs self' db' ND H.
  - inversion H; subst. auto.
  - split_run H r self1 db1 rs1 E1 E2.
    eauto using create_block_unique.
Qed.

Lemma run_calls_length cs : forall self db rs self' db',
  run_calls self db cs = (rs, self', db') -> List.length rs = List.length cs.
Proof.
  induction cs as [|c cs IH]; intros self db rs self' db' H.
  - inversion H; reflexivity.
  - split_run H r self1 db1 rs1 E1 E2. simpl. f_equal. eauto.
Qed.

(** ** The states the class reaches keep the cached tail fresh *)

Lemma tail_hash_snoc (rows : list row) (b : row) :
  tail_hash (rows ++ [b]) = current_hash b.
Proof. unfold tail_hash. rewrite rev_unit. reflexivity. Qed.

Lemma create_block_consistent self db c r self' db' :
  consistent self db ->
  create_block self db c = (r, self', db') ->
  consistent self' db'.
Proof.
  intros (HN & HT & HE) H.
  destruct (create_block_numbered _ _ _ _ _ _ HN H) as [HN' _].
  destruct r as [e|x].
  - apply create_block_inl in H as [-> ->]. repeat split; auto; apply HN.
  - apply create_block_inr in H as (_ & _ & _ & _ & -> & ->).
    split; [exact HN'|]. simpl. split.
    + rewrite tail_hash_snoc. reflexivity.
    + intros E. apply app_eq_nil in E as [_ E]. discriminate.
Qed.

Lemma new_logger_consistent (db : database) :
  numbered db -> consistent (fst (new_logger (Some db))) db.
Proof.
  intros HN. split; [exact HN|]. simpl.
  unfold cached_previous, load_chain, select_last, tail_hash. simpl.
  change (order_by_id (blocks db)) with (select_all db).
  rewrite (numbered_select_all db HN).
  destruct (rev (blocks db)) eqn:E; simpl; split; auto.
  intros E'. rewrite E' in E. discriminate.
Qed.

Lemma reachable_consistent self db : reachable self db -> consistent self db.
Proof.
  induction 1 as [|self db c HR IH|self db HR IH].
  - repeat split; reflexivity.
  - destruct (create_block self db c) as [[r self1] db1] eqn:E. simpl.
    eapply create_block_consistent; eauto.
  - apply new_logger_consistent, IH.
Qed.

Lemma numbered_last_id (db : database) (rows : list row) (b : row) :
  numbered db -> blocks db = rows ++ [b] ->
  id b = Z.of_nat (List.length (blocks db)).
Proof.
  intros [Hid _] E. rewrite E in *.
  rewrite length_app, map_app in *. simpl in *.
  rewrite Nat.add_1_r, seq_S, map_app in Hid. simpl in Hid.
  apply app_inj_tail in Hid as [_ Hid]. rewrite Hid. lia.
Qed.

(** ** Rows that agree on the linking columns verify alike *)

Lemma insert_by_id_links r r' l l' :
  same_links r r' -> Forall2 same_links l l' ->
  Forall2 same_links (insert_by_id r l) (insert_by_id r' l').
Proof.
  intros Hr HF. induction HF as [|x y l l' Hxy HF IH]; simpl.
  - constructor; [exact Hr | constructor].
  - pose proof Hr as (Hi & _). pose proof Hxy as (Hi' & _).
    rewrite <- Hi, <- Hi'.
    destruct (id r <=? id x).
    + constructor; [exact Hr | constructor; [exact Hxy | exact HF]].
    + constructor; [exact Hxy | exact IH].
Qed.

Lemma order_by_id_links l l' :
  Forall2 same_links l l' ->
  Forall2 same_links (order_by_id l) (order_by_id l').
Proof.
  induction 1; simpl; [constructor | apply insert_by_id_links; auto].
Qed.

Lemma scan_links rows rows' :
  Forall2 same_links rows rows' ->
  forall h n, Spec.scan h n rows = Spec.scan h n rows'.
Proof.
  induction 1 as [|x y l l' (Hi & Hp & Hc) HF IH]; intros h n; simpl.
  - reflexivity.
  - rewrite Hi, Hp, Hc. destruct (negb _); auto.
Qed.

(** ** Calls in flight: a call that runs alone is create_block *)

Import Threads.

Lemma step_thrice self db c :
  (let '(t1, s1, d1) := step self db (Called c) in
   let '(t2, s2, d2) := step s1 d1 t1 in
   step s2 d2 t2)
  = let '(r, self', db') := create_block self db c in
    (outcome r, self', db').
Proof.
  unfold create_block. simpl.
  destruct (storage_fails c); [reflexivity|].
  destruct (insert_block _ _ _ _ _ _ _ _ _ _) as [e|[lastrowid db']];
    reflexivity.
Qed.

Lemma nth_error_middle {A} (l l' : list A) (x : A) :
  nth_error (l ++ x :: l') (List.length l) = Some x.
Proof. induction l; simpl; auto. Qed.

Lemma set_nth_middle {A} (l l' : list A) (x y : A) :
  set_nth (List.length l) y (l ++ x :: l') = l ++ y :: l'.
Proof. induction l; simpl; [reflexivity | f_equal; auto]. Qed.

Lemma run_schedule_turn sched self db l l' t :
  run_schedule (List.length l :: sched) self db (l ++ t :: l')
  = let '(t', self', db') := step self db t in
    run_schedule sched self' db' (l ++ t' :: l').
Proof.
  simpl. rewrite nth_error_middle.
  destruct (step self db t) as [[t' self'] db'].
  rewrite set_nth_middle. reflexivity.
Qed.

Lemma serial_run cs : forall finished self db,
  run_schedule (serial_from (List.length finished) (List.length cs))
               self db (finished ++ map Called cs)
  = let '(rs, self', db') := run_calls self db cs in
    (finished ++ map outcome rs, self', db').
Proof.
  induction cs as [|c cs IH]; intros finished self db.
  - reflexivity.
  - cbn [List.length map]. unfold serial_from. cbn [seq flat_map].
    cbn [app]. fold (serial_from (S (List.length finished)) (List.length cs)).
    rewrite run_calls_cons.
    pose proof (step_thrice self db c) as E3.
    rewrite run_schedule_turn.
    destruct (step self db (Called c)) as [[t1 s1] d1].
    rewrite run_schedule_turn.
    destruct (step s1 d1 t1) as [[t2 s2] d2].
    rewrite run_schedule_turn.
    destruct (step s2 d2 t2) as [[t3 s3] d3].
    destruct (create_block self db c) as [[r self1] db1].
    inversion E3; subst.
    specialize (IH (finished ++ [outcome r]) self1 db1).
    rewrite length_app, Nat.add_1_r, <- app_assoc in IH. cbn [app] in IH.
    rewrite IH.
    destruct (run_calls self1 db1 cs) as [[rs self2] db2].
    rewrite <- app_assoc. reflexivity.
Qed.

Lemma all_returned rs :
  (forall t, In t (map outcome rs) -> exists x, t = Returned x) ->
  List.length (receipts rs) = List.length rs.
Proof.
  induction rs as [|r rs IH]; intros H; [reflexivity|].
  rewrite receipts_cons, length_app, IH.
  - destruct r as [e|x]; [|reflexivity].
    destruct (H (Raised e)) as [x Hx]; [left; reflexivity | discriminate].
  - intros t Ht. apply H. right. exact Ht.
Qed.

(** ** Several logger objects over one file *)

Lemma in_set_nth {A} (x y : A) (l : list A) : forall i,
  In x (set_nth i y l) -> x = y \/ In x l.
Proof.
  induction l as [|z l IH]; intros [|i] H; simpl in *; try tauto.
  - destruct H as [<-|H]; auto.
  - destruct H as [<-|H]; auto. destruct (IH i H); auto.
Qed.

Lemma load_chain_tail (db : database) :
  numbered db ->
  cached_previous (mkLogger (load_chain db)) = tail_hash (blocks db).
Proof.
  intros HN. apply (new_logger_consistent db HN).
Qed.

Lemma shared_numbered loggers db :
  shared loggers db ->
  numbered db
  /\ forall self, In self loggers -> blocks db = [] -> chain self = None.
Proof.
  induction 1 as [|loggers db HS [HN HE]|loggers db i self c HS [HN HE] Hi].
  - split; [split; reflexivity|].
    intros self [<-|[]] _. reflexivity.
  - split; [exact HN|]. intros self Hin Hb.
    apply in_app_or in Hin as [Hin|[<-|[]]]; [auto|].
    simpl. unfold load_chain, select_last. rewrite Hb. reflexivity.
  - destruct (create_block self db c) as [[r self1] db1] eqn:E. simpl.
    destruct (create_block_numbered _ _ _ _ _ _ HN E) as [HN1 _].
    split; [exact HN1|]. intros x Hin Hb.
    destruct r as [e|y].
    + apply create_block_inl in E as [-> ->].
      apply in_set_nth in Hin as [->|Hin]; [|auto].
      apply HE; [|exact Hb]. eapply nth_error_In; eauto.
    + apply create_block_inr in E as (_ & _ & _ & _ & _ & ->).
      simpl in Hb. apply app_eq_nil in Hb as [_ Hb]. discriminate.
Qed.

Lemma create_block_fresh self db c r self' db' :
  numbered db ->
  create_block self db c = (inr r, self', db') ->
  fresh self' db'.
Proof.
  intros HN H.
  destruct (create_block_numbered _ _ _ _ _ _ HN H) as [HN' _].
  unfold fresh. rewrite (load_chain_tail db' HN').
  apply create_block_inr in H as (_ & _ & _ & _ & -> & ->). simpl.
  rewrite tail_hash_snoc. reflexivity.
Qed.

(** One logger at a time is the special case in which the logger that
    appends is always fresh. *)
Lemma reachable_shared self db :
  reachable self db ->
  exists loggers, shared loggers db /\ In self loggers /\ fresh self db.
Proof.
  induction 1 as [|self db c HR (loggers & HS & Hin & HF)
                  |self db HR (loggers & HS & Hin & HF)].
  - exists [fst (new_logger None)].
    split; [constructor|]. split; [left; reflexivity | reflexivity].
  - apply In_nth_error in Hin as [i Hi].
    exists (set_nth i (snd (fst (create_block self db c))) loggers).
    split; [apply shared_call; assumption|].
    pose proof (shared_numbered _ _ HS) as [HN _].
    destruct (create_block self db c) as [[r self1] db1] eqn:E. simpl.
    split.
    + clear - Hi. revert i Hi.
      induction loggers as [|z l IH]; intros [|i] Hi; simpl in *;
        try discriminate; auto.
    + destruct r as [e|y].
      * apply create_block_inl in E as [-> ->]. exact HF.
      * eapply create_block_fresh; eauto.
  - exists (loggers ++ [fst (new_logger (Some db))]).
    split; [apply shared_open; assumption|].
    split; [apply in_or_app; right; left; reflexivity | reflexivity].
Qed.

(** ** Calls in flight: what every interleaving keeps *)

Lemma insert_block_inr db p h ts dt s f a sv d rowid db' :
  insert_block db p h ts dt s f a sv d = inr (rowid, db') ->
  rowid = next_rowid db
  /\ existsb (fun b => String.eqb (current_hash b) h) (blocks db) = false
  /\ db' = mkDb (blocks db ++ [mkRow rowid p h ts dt s f a sv d]) rowid.
Proof.
  unfold insert_block, next_rowid.
  destruct (max_rowid <? _); [discriminate|].
  destruct (existsb _ (blocks db)) eqn:E; [discriminate|].
  intros H; inversion H; subst. auto.
Qed.

Lemma numbered_snoc (db : database) (b : row) :
  numbered db -> id b = next_rowid db ->
  numbered (mkDb (blocks db ++ [b]) (next_rowid db)).
Proof.
  intros HN Hb. unfold next_rowid in *.
  rewrite (numbered_largest db HN) in *.
  destruct HN as [Hid Hseq]. unfold numbered. simpl.
  rewrite length_app, map_app, Hid. simpl.
  rewrite Nat.add_1_r, seq_S, map_app. simpl.
  split; [|lia]. do 2 f_equal. lia.
Qed.

Lemma unique_snoc (rows : list row) (b : row) :
  NoDup (map current_hash rows) ->
  existsb (fun r => String.eqb (current_hash r) (current_hash b)) rows
  = false ->
  NoDup (map current_hash (rows ++ [b])).
Proof.
  intros ND Hex. rewrite map_app. simpl.
  apply NoDup_app_remove_l with (l := []). simpl.
  eapply Permutation_NoDup; [apply Permutation_cons_append|].
  constructor; auto. intros Hin. apply in_map_iff in Hin as (r & Hr & Hin).
  assert (existsb (fun r => String.eqb (current_hash r) (current_hash b))
                  rows = true) as Hc.
  { apply existsb_exists. exists r. split; auto.
    rewrite Hr. apply String.eqb_refl. }
  congruence.
Qed.

(** The two ways a turn can go: the file stays as it is, or the thread
    was about to insert and its row is appended. *)
Lemma step_cases self db t t' self' db' :
  step self db t = (t', self', db') ->
  (db' = db /\ committed t' = committed t
   /\ (recorded db t -> recorded db t'))
  \/ (exists c p h,
        t = Hashed c p h /\ t' = Committed c (next_rowid db) p h
        /\ self' = self
        /\ existsb (fun b => String.eqb (current_hash b) h) (blocks db)
           = false
        /\ db' = mkDb (blocks db ++
                         [mkRow (next_rowid db) p h (utcnow c)
                                (arg_data_type c) (arg_sensor_id c)
                                (arg_fund_id c) (arg_anomaly_type c)
                                (arg_severity c) (dumps false (arg_data c))])
                      (next_rowid db)).
Proof.
  destruct t as [c|c p h|c i p h|r|e]; simpl; intros H.
  - inversion H; subst. left. simpl. auto.
  - destruct (storage_fails c).
    { inversion H; subst. left. simpl. auto. }
    destruct (insert_block _ _ _ _ _ _ _ _ _ _) as [e|[rowid db1]] eqn:E.
    { inversion H; subst. left. simpl. auto. }
    inversion H; subst.
    apply insert_block_inr in E as (-> & Hex & ->).
    right. exists c, p, h. auto 6.
  - inversion H; subst. left. simpl. auto.
  - inversion H; subst. left. auto.
  - inversion H; subst. left. auto.
Qed.

Lemma count_middle {A} (p : A -> bool) (l l' : list A) (x : A) :
  List.length (filter p (l ++ x :: l'))
  = (List.length (filter p l) + (if p x then 1 else 0)
     + List.length (filter p l'))%nat.
Proof.
  rewrite filter_app, length_app. simpl.
  destruct (p x); simpl; lia.
Qed.

Lemma recorded_grows (db : database) (b : row) (n : Z) (t : thread) :
  recorded db t -> recorded (mkDb (blocks db ++ [b]) n) t.
Proof.
  destruct t as [c|c p h|c i p h|r|e]; simpl; auto;
    intros (x & Hx & Hl); exists x; (split; [apply in_or_app; auto | auto]).
Qed.

Lemma turn_keeps self db l l' t t' self' db' :
  step self db t = (t', self', db') ->
  numbered db ->
  NoDup (map current_hash (blocks db)) ->
  List.length (filter committed (l ++ t :: l')) = List.length (blocks db) ->
  Forall (recorded db) (l ++ t :: l') ->
  numbered db'
  /\ NoDup (map current_hash (blocks db'))
  /\ List.length (filter committed (l ++ t' :: l'))
     = List.length (blocks db')
  /\ Forall (recorded db') (l ++ t' :: l').
Proof.
  intros Hs HN HU HC HR.
  apply Forall_app in HR as [HRl HR].
  apply Forall_cons_iff in HR as [HRt HRl'].
  rewrite count_middle in HC. rewrite count_middle.
  apply step_cases in Hs
    as [(-> & Hc & Hrec)|(c & p & h & -> & -> & -> & Hex & ->)].
  - rewrite Hc. split; [exact HN|]. split; [exact HU|].
    split; [exact HC|].
    apply Forall_app. split; [exact HRl|]. constructor; auto.
  - simpl in *. split; [apply numbered_snoc; auto|].
    split; [apply unique_snoc; auto|].
    split; [rewrite length_app; simpl; lia|].
    apply Forall_app. split.
    + eapply Forall_impl; [|exact HRl]. intros t. apply recorded_grows.
    + constructor.
      * simpl. eexists. split; [apply in_or_app; right; left; reflexivity|].
        reflexivity.
      * eapply Forall_impl; [|exact HRl']. intros t. apply recorded_grows.
Qed.

Lemma nth_error_middle_inv {A} (l : list A) (i : nat) (x : A) :
  nth_error l i = Some x ->
  exists l1 l2, l = l1 ++ x :: l2 /\ i = List.length l1.
Proof.
  intros H. apply nth_error_split in H as (l1 & l2 & -> & <-).
  exists l1, l2. auto.
Qed.

Lemma run_schedule_keeps sched : forall self db pool pool' self' db',
  run_schedule sched self db pool = (pool', self', db') ->
  numbered db ->
  NoDup (map current_hash (blocks db)) ->
  List.length (filter committed pool) = List.length (blocks db) ->
  Forall (recorded db) pool ->
  numbered db'
  /\ NoDup (map current_hash (blocks db'))
  /\ List.length (filter committed pool') = List.length (blocks db')
  /\ Forall (recorded db') pool'
  /\ List.length pool' = List.length pool.
Proof.
  induction sched as [|i sched IH];
    intros self db pool pool' self' db' H HN HU HC HR.
  - inversion H; subst. auto 6.
  - cbn [run_schedule] in H.
    destruct (nth_error pool i) as [t|] eqn:Hi; [|eauto].
    apply nth_error_middle_inv in Hi as (l & l' & -> & ->).
    destruct (step self db t) as [[t' self1] db1] eqn:Hs.
    rewrite set_nth_middle in H.
    destruct (turn_keeps _ _ _ _ _ _ _ _ Hs HN HU HC HR)
      as (HN1 & HU1 & HC1 & HR1).
    destruct (IH _ _ _ _ _ _ H HN1 HU1 HC1 HR1) as (? & ? & ? & ? & HL).
    do 4 (split; [assumption|]). rewrite HL, !length_app. reflexivity.
Qed.

Lemma all_committed (pool : list thread) :
  (forall t, In t pool -> exists r, t = Returned r) ->
  filter committed pool = pool.
Proof.
  induction pool as [|t pool IH]; intros H; [reflexivity|].
  destruct (H t) as [r ->]; [left; reflexivity|]. simpl. f_equal.
  apply IH. intros u Hu. apply H. right. exact Hu.
Qed.

(** ** Calls in flight, one at a time *)

Lemma linked_from_tail (rows : list row) : forall h b,
  linked_from h rows ->
  previous_hash b = match rev rows with
                    | [] => h
                    | r :: _ => current_hash r
                    end ->
  linked_from h (rows ++ [b]).
Proof.
  induction rows as [|r rows IH]; intros h b HL Hb; simpl in *.
  - auto.
  - destruct HL as [Hr HL]. split; [exact Hr|].
    apply IH; [exact HL|]. rewrite Hb.
    destruct (rev rows) as [|x l]; reflexivity.
Qed.

Lemma none_in_flight (self : BlockchainLogger) (db : database)
    (l : list thread) :
  in_flight l = 0%nat -> Forall (in_step self db) l.
Proof.
  unfold in_flight. induction l as [|t l IH]; simpl; intros H.
  - constructor.
  - destruct t; simpl in H; try discriminate;
      constructor; simpl; auto.
Qed.

Lemma in_flight_middle (l l' : list thread) (t : thread) :
  in_flight (l ++ t :: l')
  = (in_flight l + (if in_critical t then 1 else 0) + in_flight l')%nat.
Proof. apply count_middle. Qed.

Lemma turn_in_step self db l l' t t' self' db' :
  step self db t = (t', self', db') ->
  (in_flight (l ++ t :: l') <= 1)%nat ->
  (in_flight (l ++ t' :: l') <= 1)%nat ->
  linked_from genesis (blocks db) ->
  Forall (in_step self db) (l ++ t :: l') ->
  (in_flight (l ++ t :: l') = 0%nat ->
   cached_previous self = tail_hash (blocks db)) ->
  linked_from genesis (blocks db')
  /\ Forall (in_step self' db') (l ++ t' :: l')
  /\ (in_flight (l ++ t' :: l') = 0%nat ->
      cached_previous self' = tail_hash (blocks db')).
Proof.
  intros Hs H1 H1' HL HF H0.
  rewrite in_flight_middle in *.
  pose proof HF as HF0.
  apply Forall_app in HF as [_ HF]. apply Forall_cons_iff in HF as [Ht _].
  assert (Hrest : forall s d, in_flight l = 0%nat -> in_flight l' = 0%nat ->
                    forall u, Forall (in_step s d) (l ++ u :: l')
                              <-> in_step s d u).
  { intros s d Hl Hl' u. rewrite Forall_app, Forall_cons_iff.
    pose proof (none_in_flight s d l Hl).
    pose proof (none_in_flight s d l' Hl'). tauto. }
  destruct t as [c|c p h|c i p h|r|e]; simpl in Hs, H1, Ht.
  - injection Hs as <- <- <-. simpl in H1'.
    assert (Hl : in_flight l = 0%nat) by lia.
    assert (Hl' : in_flight l' = 0%nat) by lia.
    split; [exact HL|]. split; [|simpl; lia].
    apply (Hrest _ _ Hl Hl'). simpl. split; apply H0; simpl; lia.
  - assert (Hl : in_flight l = 0%nat) by lia.
    assert (Hl' : in_flight l' = 0%nat) by lia.
    destruct Ht as [Hp Hc].
    assert (Hfail : forall e,
              linked_from genesis (blocks db)
              /\ Forall (in_step self db) (l ++ Raised e :: l')
              /\ ((in_flight l + (if in_critical (Raised e) then 1 else 0)
                   + in_flight l')%nat = 0%nat ->
                  cached_previous self = tail_hash (blocks db))).
    { intros e. split; [exact HL|]. split; [|intros _; exact Hc].
      apply (Hrest _ _ Hl Hl'). exact I. }
    destruct (storage_fails c).
    { injection Hs as <- <- <-. apply Hfail. }
    destruct (insert_block _ _ _ _ _ _ _ _ _ _) as [e|[rowid db1]] eqn:E.
    { injection Hs as <- <- <-. apply Hfail. }
    injection Hs as <- <- <-.
    apply insert_block_inr in E as (-> & _ & ->). simpl.
    split; [|split; [|lia]].
    + apply linked_from_tail; [exact HL|]. simpl. rewrite Hp.
      unfold tail_hash. destruct (rev (blocks db)); reflexivity.
    + apply (Hrest _ _ Hl Hl'). simpl. rewrite tail_hash_snoc. reflexivity.
  - injection Hs as <- <- <-.
    assert (Hl : in_flight l = 0%nat) by lia.
    assert (Hl' : in_flight l' = 0%nat) by lia.
    split; [exact HL|]. split; [|intros _; exact Ht].
    apply (Hrest _ _ Hl Hl'). exact I.
  - injection Hs as <- <- <-. auto.
  - injection Hs as <- <- <-. auto.
Qed.

Lemma one_at_a_time_prefix sched self db pool :
  one_at_a_time sched self db pool = true ->
  forall n, (n <= List.length sched)%nat ->
    (in_flight (fst (fst (run_schedule (firstn n sched) self db pool)))
     <= 1)%nat.
Proof.
  unfold one_at_a_time. rewrite forallb_forall. intros H n Hn.
  apply Nat.leb_le. apply H. apply in_seq. lia.
Qed.

Lemma run_schedule_in_step sched : forall self db pool pool' self' db',
  run_schedule sched self db pool = (pool', self', db') ->
  (forall n, (n <= List.length sched)%nat ->
     (in_flight (fst (fst (run_schedule (firstn n sched) self db pool)))
      <= 1)%nat) ->
  linked_from genesis (blocks db) ->
  Forall (in_step self db) pool ->
  (in_flight pool = 0%nat -> cached_previous self = tail_hash (blocks db)) ->
  linked_from genesis (blocks db').
Proof.
  induction sched as [|i sched IH];
    intros self db pool pool' self' db' H Hone HL HF H0.
  - inversion H; subst. exact HL.
  - pose proof (Hone 0%nat ltac:(simpl; lia)) as H1. cbn in H1.
    cbn [run_schedule] in H.
    destruct (nth_error pool i) as [t|] eqn:Hi.
    + destruct (step self db t) as [[t' self1] db1] eqn:Hs.
      assert (Hone' : forall n, (n <= List.length sched)%nat ->
                (in_flight (fst (fst (run_schedule (firstn n sched) self1 db1
                                        (set_nth i t' pool)))) <= 1)%nat).
      { intros n Hn. specialize (Hone (S n) ltac:(simpl; lia)).
        cbn [firstn run_schedule] in Hone. rewrite Hi, Hs in Hone.
        exact Hone. }
      pose proof (Hone' 0%nat ltac:(lia)) as H1'. cbn in H1'.
      apply nth_error_middle_inv in Hi as (l & l' & -> & ->).
      rewrite set_nth_middle in *.
      destruct (turn_in_step _ _ _ _ _ _ _ _ Hs H1 H1' HL HF H0)
        as (HL1 & HF1 & H01).
      eapply IH; eauto.
    + eapply IH; eauto. intros n Hn.
      specialize (Hone (S n) ltac:(simpl; lia)).
      cbn [firstn run_schedule] in Hone. rewrite Hi in Hone. exact Hone.
Qed.

Lemma linked_previous_incl (rows : list row) : forall h,
  linked_from h rows ->
  incl (map previous_hash rows) (h :: map current_hash rows).
Proof.
  induction rows as [|r rows IH]; intros h HL x Hx; simpl in *.
  - contradiction.
  - destruct HL as [Hr HL]. destruct Hx as [<-|Hx]; [left; auto|].
    right. apply (IH _ HL). exact Hx.
Qed.

Lemma linked_no_fork (rows : list row) : forall h,
  linked_from h rows ->
  NoDup (h :: map current_hash rows) ->
  NoDup (map previous_hash rows).
Proof.
  induction rows as [|r rows IH]; intros h HL ND; simpl in *.
  - constructor.
  - destruct HL as [Hr HL]. apply NoDup_cons_iff in ND as [Hh ND'].
    constructor.
    + intros Hin. apply (linked_previous_incl _ _ HL) in Hin.
      apply Hh. rewrite Hr in Hin. exact Hin.
    + apply (IH _ HL ND').
Qed.

(** ** Calls that run from start to end, one after the other, are apart *)

Lemma in_flight_called (cs : list call) : in_flight (map Called cs) = 0%nat.
Proof. induction cs; simpl; auto. Qed.

Lemma in_flight_waiting (finished : list thread) (t : thread)
    (cs : list call) :
  in_flight finished = 0%nat ->
  in_flight (finished ++ t :: map Called cs)
  = if in_critical t then 1%nat else 0%nat.
Proof.
  intros H. rewrite in_flight_middle, H, in_flight_called. lia.
Qed.

Lemma serial_keeps_apart cs : forall finished self db n,
  in_flight finished = 0%nat ->
  (in_flight
     (fst (fst (run_schedule
                  (firstn n (serial_from (List.length finished)
                                         (List.length cs)))
                  self db (finished ++ map Called cs))))
   <= 1)%nat.
Proof.
  induction cs as [|c cs IH]; intros finished self db n H0.
  - unfold serial_from. simpl. rewrite firstn_nil. simpl.
    rewrite app_nil_r, H0. lia.
  - cbn [List.length map]. unfold serial_from. cbn [seq flat_map].
    cbn [app]. fold (serial_from (S (List.length finished)) (List.length cs)).
    pose proof (step_thrice self db c) as E3.
    destruct n as [|[|[|n]]]; cbn [firstn].
    + cbn [run_schedule fst]. rewrite in_flight_waiting by exact H0.
      simpl. lia.
    + rewrite run_schedule_turn.
      destruct (step self db (Called c)) as [[t1 s1] d1] eqn:E1.
      cbn [run_schedule fst]. rewrite in_flight_waiting by exact H0.
      destruct (in_critical t1); lia.
    + rewrite run_schedule_turn.
      destruct (step self db (Called c)) as [[t1 s1] d1] eqn:E1.
      rewrite run_schedule_turn.
      destruct (step s1 d1 t1) as [[t2 s2] d2] eqn:E2.
      cbn [run_schedule fst]. rewrite in_flight_waiting by exact H0.
      destruct (in_critical t2); lia.
    + rewrite run_schedule_turn.
      destruct (step self db (Called c)) as [[t1 s1] d1].
      rewrite run_schedule_turn.
      destruct (step s1 d1 t1) as [[t2 s2] d2].
      rewrite run_schedule_turn.
      destruct (step s2 d2 t2) as [[t3 s3] d3].
      destruct (create_block self db c) as [[r self1] db1].
      inversion E3; subst.
      specialize (IH (finished ++ [outcome r]) self1 db1 n).
      rewrite length_app, Nat.add_1_r, <- app_assoc in IH. cbn [app] in IH.
      apply IH. unfold in_flight in *. rewrite filter_app, length_app, H0.
      destruct r; reflexivity.
Qed.

Lemma serial_one_at_a_time cs self db :
  one_at_a_time (serial_from 0 (List.length cs)) self db (map Called cs)
  = true.
Proof.
  unfold one_at_a_time. apply forallb_forall. intros n _.
  apply Nat.leb_le. apply (serial_keeps_apart cs [] self db n). reflexivity.
Qed.

(* ================================================================= *)
(** * The claims *)

Import Scenario.

(** C1.  Whatever the logger and the file are at the start, the rows that
    a run of calls on this one logger appends are the rows its receipts
    describe, and each of them after the first names as its
    [previous_hash] the [current_hash] of the row appended just before it;
    calls that fail in between append nothing. *)
Theorem chain_links_single_writer self db cs rs self' db' :
  run_calls self db cs = (rs, self', db') ->
  exists appended,
    blocks db' = blocks db ++ appended
    /\ map links appended = map receipt_links (receipts rs)
    /\ forall i p b,
         nth_error appended i = Some p ->
         nth_error appended (S i) = Some b ->
         previous_hash b = current_hash p.
Proof.
  intros H. destruct (run_calls_appends _ _ _ _ _ _ H) as (news & Hb & Hl & Hm).
  exists news. repeat split; auto.
  intros i p b. eapply linked_adjacent; eauto.
Qed.

Lemma chain_links_single_writer_witness :
  run_calls logger0 db0 [water_call; fund_call]
  = (fst (fst logged2), snd (fst logged2), snd logged2)
  /\ exists appended,
       blocks (snd logged2) = blocks db0 ++ appended
       /\ map links appended = map receipt_links (receipts (fst (fst logged2)))
       /\ forall i p b,
            nth_error appended i = Some p ->
            nth_error appended (S i) = Some b ->
            previous_hash b = current_hash p.
Proof.
  split; [vm_compute; reflexivity|].
  apply (chain_links_single_writer logger0 db0 [water_call; fund_call]
           (fst (fst logged2)) (snd (fst logged2)) (snd logged2)).
  vm_compute; reflexivity.
Defined.

(** C2 (as the code has it).  [verify_chain] returns EMPTY_CHAIN on an
    empty table; otherwise it is the specified scan with
    [expected_previous] started at the first row's own [previous_hash]
    instead of the genesis sentinel: the first row is never reported, the
    first later row whose [previous_hash] differs from its predecessor's
    [current_hash] is reported with its id and the two digests, and
    without such a row the result is VALID_CHAIN with the row count.  It
    agrees with the specified [verify] whenever the first row names the
    genesis sentinel. *)
Theorem verify_chain_scans_from_first_row db :
  verify_chain db
  = match select_all db with
    | [] => EMPTY_CHAIN
    | b :: rest =>
        Spec.scan (previous_hash b) (List.length (b :: rest)) (b :: rest)
    end
  /\ (forall b rest,
        select_all db = b :: rest -> previous_hash b = genesis ->
        verify_chain db = Spec.verify db)
  /\ (select_all db = [] -> verify_chain db = Spec.verify db).
Proof.
  split; [apply verify_chain_scan|]. split.
  - intros b rest E Hg. rewrite verify_chain_scan. unfold Spec.verify.
    rewrite E, Hg. reflexivity.
  - intros E. rewrite verify_chain_scan. unfold Spec.verify.
    rewrite E. reflexivity.
Qed.

Lemma verify_chain_scans_from_first_row_witness :
  verify_chain db2 = VALID_CHAIN 2 /\ verify_chain db2 = Spec.verify db2.
Proof.
  split; [vm_compute; reflexivity|].
  destruct (verify_chain_scans_from_first_row db2) as (_ & H & _).
  eapply H; vm_compute; reflexivity.
Defined.

(** C2, the claim as stated fails: after the first row's [previous_hash]
    is overwritten in storage with a value that is not the genesis
    sentinel, the specified scan reports a break at row 1 and
    [verify_chain] reports a valid chain of one block. *)
Lemma verify_chain_ignores_genesis :
  blocks relinked_db <> []
  /\ map previous_hash (select_all relinked_db) = [forged_hash]
  /\ forged_hash <> genesis
  /\ Spec.verify relinked_db = INVALID_CHAIN 1 genesis forged_hash
  /\ verify_chain relinked_db = VALID_CHAIN 1
  /\ verify_chain relinked_db <> Spec.verify relinked_db.
Proof.
  repeat split; try (vm_compute; reflexivity); vm_compute; discriminate.
Qed.

(** C3 (as the code has it).  Any number of logger objects work on one
    file, one call at a time.  A successful call appends one row whose id
    is the number of rows so far plus one and whose [previous_hash] is
    the digest its logger holds in [self.chain].  On an empty table that
    id is 1 and the [previous_hash] is the genesis sentinel, sixty-four
    characters ['0'].  On a table with rows, the [previous_hash] is the
    [current_hash] of the stored row whose id is one less when the
    logger's digest is fresh, the one [load_chain] would fetch now.  The
    logger that has just appended is fresh, and so is every logger as
    long as one logger at a time writes the file, a new one opened in
    place of the old included. *)
Theorem previous_hash_of_appended_block loggers db self c r self' db' :
  shared loggers db -> In self loggers ->
  create_block self db c = (inr r, self', db') ->
  exists b',
    blocks db' = blocks db ++ [b']
    /\ links b' = receipt_links r
    /\ id b' = Z.of_nat (List.length (blocks db)) + 1
    /\ previous_hash b' = cached_previous self
    /\ (blocks db = [] -> id b' = 1 /\ previous_hash b' = genesis)
    /\ (blocks db <> [] -> fresh self db ->
        exists b, In b (blocks db) /\ id b = id b' - 1
                  /\ previous_hash b' = current_hash b)
    /\ fresh self' db'
    /\ (reachable self db -> fresh self db)
    /\ genesis
       = "0000000000000000000000000000000000000000000000000000000000000000"%string.
Proof.
  intros HS Hin H. destruct (shared_numbered _ _ HS) as [HN HE].
  pose proof (create_block_fresh _ _ _ _ _ _ HN H) as HF'.
  apply create_block_inr in H as (_ & _ & _ & -> & _ & ->).
  exists (appended_row (next_rowid db) (cached_previous self) c).
  assert (Hid : next_rowid db = Z.of_nat (List.length (blocks db)) + 1).
  { unfold next_rowid. rewrite (numbered_largest db HN). reflexivity. }
  simpl. split; [reflexivity|]. split; [reflexivity|].
  split; [exact Hid|]. split; [reflexivity|].
  split; [|split; [|split; [exact HF' | split; [|reflexivity]]]].
  - intros Hb. split; [rewrite Hid, Hb; reflexivity|].
    unfold cached_previous. rewrite (HE self Hin Hb). reflexivity.
  - intros Hne HF. destruct (exists_last Hne) as (rows & b & E).
    exists b. unfold fresh in HF.
    rewrite HF, (load_chain_tail db HN), E, tail_hash_snoc.
    split; [apply in_or_app; right; left; reflexivity|].
    split; [|reflexivity].
    rewrite (numbered_last_id db rows b HN E), Hid. lia.
  - intros HR. destruct (reachable_shared _ _ HR) as (_ & _ & _ & HF).
    exact HF.
Qed.

Lemma previous_hash_of_appended_block_witness :
  shared [snd (fst logged1); logger0] db1
  /\ fresh (snd (fst logged1)) db1
  /\ exists b',
       blocks db2 = blocks db1 ++ [b']
       /\ links b' = receipt_links
                       (mkReceipt 2 (tail_hash (blocks db1))
                          (block_hash (tail_hash (blocks db1)) fund_call)
                          (utcnow fund_call) "VERIFIED"%string)
       /\ id b' = Z.of_nat (List.length (blocks db1)) + 1
       /\ previous_hash b' = cached_previous (snd (fst logged1))
       /\ (blocks db1 = [] -> id b' = 1 /\ previous_hash b' = genesis)
       /\ (blocks db1 <> [] -> fresh (snd (fst logged1)) db1 ->
           exists b, In b (blocks db1) /\ id b = id b' - 1
                     /\ previous_hash b' = current_hash b)
       /\ fresh (snd (fst logged2)) db2
       /\ (reachable (snd (fst logged1)) db1 -> fresh (snd (fst logged1)) db1)
       /\ genesis
          = "0000000000000000000000000000000000000000000000000000000000000000"%string.
Proof.
  assert (HS : shared [snd (fst logged1); logger0] db1).
  { pose proof (shared_call _ _ 0%nat logger0 water_call
                  (shared_open _ _ shared_new) eq_refl) as HS.
    assert (E : create_block logger0 (snd (new_logger None)) water_call
                = (fst (fst (create_block logger0 db0 water_call)),
                   snd (fst logged1), db1))
      by (vm_compute; reflexivity).
    rewrite E in HS. exact HS. }
  split; [exact HS|]. split; [vm_compute; reflexivity|].
  apply (previous_hash_of_appended_block [snd (fst logged1); logger0] db1
           (snd (fst logged1)) fund_call _ (snd (fst logged2)) db2 HS).
  - left; reflexivity.
  - vm_compute; reflexivity.
Defined.

(** C3, the claim as stated fails: two logger objects are opened on a new
    file and the first one appends block 1.  The second one still holds
    no tail; its call succeeds, its row gets the id 2 and names the
    genesis sentinel, not the digest of the row with id 1. *)
Lemma stale_logger_names_genesis :
  shared [snd (fst logged1); logger0] db1
  /\ map links (blocks db1) = [(1, genesis, block_hash genesis water_call)]
  /\ ~ fresh logger0 db1
  /\ (exists r self' db',
        create_block logger0 db1 fund_call = (inr r, self', db')
        /\ block_id r = 2 /\ r_previous_hash r = genesis
        /\ map id (blocks db') = [1; 2]
        /\ map previous_hash (blocks db') = [genesis; genesis])
  /\ block_hash genesis water_call <> genesis.
Proof.
  split.
  { pose proof (shared_call _ _ 0%nat logger0 water_call
                  (shared_open _ _ shared_new) eq_refl) as HS.
    assert (E : create_block logger0 (snd (new_logger None)) water_call
                = (fst (fst (create_block logger0 db0 water_call)),
                   snd (fst logged1), db1))
      by (vm_compute; reflexivity).
    rewrite E in HS. exact HS. }
  split; [vm_compute; reflexivity|].
  split; [vm_compute; discriminate|].
  split; [|vm_compute; discriminate].
  do 3 eexists. split; [vm_compute; reflexivity|].
  repeat split; vm_compute; reflexivity.
Qed.

(** C4 (as the code has it).  [verify_chain] has no deep-verify mode: it
    takes no mode argument, never recomputes a digest, and reads only the
    columns [id], [previous_hash] and [current_hash].  Two tables whose
    rows agree on these three columns get the same result, whatever the
    other stored fields hold. *)
Theorem verify_chain_reads_links_only db db' :
  Forall2 same_links (blocks db) (blocks db') ->
  verify_chain db = verify_chain db'.
Proof.
  intros HF. rewrite !verify_chain_scan. unfold select_all.
  apply order_by_id_links in HF.
  pose proof (Forall2_length HF) as HL.
  destruct HF as [|b b' rest rest' Hb HF]; [reflexivity|].
  cbn [List.length] in *. injection HL as HL. rewrite HL.
  destruct Hb as (Hi & Hp & Hc). rewrite Hp.
  apply scan_links. constructor; [repeat split; auto | exact HF].
Qed.

Lemma verify_chain_reads_links_only_witness :
  Forall2 same_links (blocks db2) (blocks edited_db)
  /\ verify_chain db2 = verify_chain edited_db.
Proof.
  assert (HF : Forall2 same_links (blocks db2) (blocks edited_db)).
  { vm_compute. repeat constructor. }
  split; [exact HF | exact (verify_chain_reads_links_only db2 edited_db HF)].
Defined.

(** C4, the claim as stated fails: the severity stored for block 1 is
    overwritten in storage after two appends.  The stored [data] text
    still decodes to the payload that was logged, the digest recomputed
    from the stored fields of block 1 differs from its stored
    [current_hash], and [verify_chain], the only verification there is,
    reports a valid chain of two blocks. *)
Lemma payload_edit_passes_verify :
  exists b,
    nth_error (select_all edited_db) 0 = Some b
    /\ id b = 1
    /\ data b = dumps false (arg_data water_call)
    /\ Spec.recomputed_hash b (arg_data water_call) <> current_hash b
    /\ verify_chain edited_db = VALID_CHAIN 2.
Proof.
  eexists. split; [vm_compute; reflexivity|].
  repeat split; try (vm_compute; reflexivity).
  vm_compute; discriminate.
Qed.

(** C5.  When a stored row already has the digest computed for the new
    block, [create_block] raises: the call returns an exception to its
    caller and leaves both the file and the logger as they were, so no
    row is recorded.  Unless the storage itself fails or the row ids are
    exhausted, the exception is sqlite3.IntegrityError, raised by the
    UNIQUE constraint on [current_hash]. *)
Theorem duplicate_digest_raises self db c b :
  In b (blocks db) ->
  current_hash b = block_hash (cached_previous self) c ->
  exists e,
    create_block self db c = (inl e, self, db)
    /\ (storage_fails c = false -> next_rowid db <= max_rowid ->
        e = IntegrityError).
Proof.
  intros Hin Hb.
  assert (Hex : existsb (fun r => String.eqb (current_hash r)
                           (block_hash (cached_previous self) c))
                        (blocks db) = true).
  { apply existsb_exists. exists b. split; auto.
    rewrite Hb. apply String.eqb_refl. }
  unfold create_block, insert_block. fold (next_rowid db).
  destruct (storage_fails c).
  - exists OperationalError. split; [reflexivity | discriminate].
  - destruct (Z.ltb_spec max_rowid (next_rowid db)).
    + exists OperationalError. split; [reflexivity | lia].
    + rewrite Hex. exists IntegrityError. split; reflexivity.
Qed.

Lemma duplicate_digest_raises_witness :
  exists b,
    In b (blocks db1)
    /\ current_hash b = block_hash (cached_previous logger0) water_call
    /\ create_block logger0 db1 water_call = (inl IntegrityError, logger0, db1).
Proof.
  destruct (nth_error (blocks db1) 0) as [b|] eqn:E; [|discriminate E].
  exists b.
  assert (Hin : In b (blocks db1)) by (eapply nth_error_In; exact E).
  assert (Hb : current_hash b = block_hash (cached_previous logger0) water_call).
  { vm_compute in E. injection E as <-. vm_compute. reflexivity. }
  split; [exact Hin|]. split; [exact Hb|].
  destruct (duplicate_digest_raises logger0 db1 water_call b Hin Hb)
    as (e & Hc & He).
  rewrite Hc. rewrite He; [reflexivity | reflexivity | vm_compute; discriminate].
Defined.

(** C6.  The digest of a block does not depend on the order in which the
    members of the record, or of any dict inside its payload, were
    inserted: every record that is the same up to insertion order has the
    block's digest, because [json.dumps] is called with [sort_keys].  The
    digest is 32 bytes, written as 64 hexadecimal characters. *)
Theorem block_hash_canonical previous_hash c record :
  Spec.same_record (block_data previous_hash c) record ->
  Sha256.hexdigest (dumps true record) = block_hash previous_hash c
  /\ String.length (block_hash previous_hash c) = 64%nat
  /\ List.length
       (Sha256.digest_bytes
          (Sha256.encode (dumps true (block_data previous_hash c))))
     = 32%nat.
Proof.
  intros H. split; [|split].
  - unfold block_hash. rewrite (dumps_same_record _ _ H). reflexivity.
  - apply hexdigest_length.
  - apply digest_bytes_length.
Qed.

Lemma block_hash_canonical_witness :
  Spec.same_record (block_data genesis water_call) water_record_reordered
  /\ block_data genesis water_call <> water_record_reordered
  /\ Sha256.hexdigest (dumps true water_record_reordered)
     = block_hash genesis water_call.
Proof.
  assert (Hpayload : Spec.same_record (arg_data water_call)
                                      water_payload_reordered).
  { eapply Spec.same_dict.
    - vm_compute. repeat constructor; simpl; intuition discriminate.
    - apply Permutation_cons_append.
    - repeat constructor. }
  assert (H : Spec.same_record (block_data genesis water_call)
                               water_record_reordered).
  { eapply Spec.same_dict.
    - vm_compute. repeat constructor; simpl; intuition discriminate.
    - apply Permutation_cons_append.
    - repeat (constructor; [split; [reflexivity|]; try apply Spec.same_refl|]);
        [exact Hpayload | constructor]. }
  split; [exact H|]. split; [vm_compute; discriminate|].
  exact (proj1 (block_hash_canonical genesis water_call _ H)).
Defined.

(** C7.  A call that succeeds stores the new block's
    [(lastrowid, previous_hash, current_hash)] in [self.chain], and that
    row is the one appended to the table; a call that raises, whatever
    the exception, returns it to the caller and leaves [self.chain] and
    the file as they were.  In the states the class reaches from a new
    file a success always changes the cached tail. *)
Theorem cached_tail_updated_iff_success self db c :
  match create_block self db c with
  | (inr r, self', db') =>
      chain self'
      = Some (Appended (block_id r) (r_previous_hash r) (r_current_hash r))
      /\ exists b, blocks db' = blocks db ++ [b] /\ links b = receipt_links r
  | (inl e, self', db') => chain self' = chain self /\ db' = db
  end
  /\ (reachable self db ->
      forall r self' db',
        create_block self db c = (inr r, self', db') ->
        chain self' <> chain self).
Proof.
  split.
  - destruct (create_block self db c) as [[[e|r] self'] db'] eqn:E.
    + apply create_block_inl in E as [-> ->]. auto.
    + apply create_block_inr in E as (_ & _ & _ & -> & -> & ->).
      split; [reflexivity|]. eexists. split; reflexivity.
  - intros HR r self' db' E.
    apply reachable_consistent in HR as (HN & HT & HE).
    apply create_block_inr in E as (_ & _ & Hex & _ & -> & _).
    simpl. intros Heq.
    destruct (blocks db) as [|b0 rows0] eqn:Eb.
    + rewrite HE in Heq by reflexivity. discriminate.
    + destruct (@exists_last _ (b0 :: rows0)) as (rows & b & El);
        [discriminate|].
      rewrite El in HT, Hex. rewrite tail_hash_snoc in HT.
      assert (Hc : cached_previous self
                   = block_hash (cached_previous self) c).
      { unfold cached_previous at 1. rewrite <- Heq. reflexivity. }
      rewrite existsb_app in Hex. apply orb_false_elim in Hex as [_ Hex].
      simpl in Hex. rewrite <- HT, <- Hc, String.eqb_refl in Hex.
      discriminate.
Qed.

Lemma cached_tail_updated_iff_success_witness :
  reachable (snd (fst logged1)) db1
  /\ create_block (snd (fst logged1)) db1 fund_call
     = (inr (mkReceipt 2 (tail_hash (blocks db1))
               (block_hash (tail_hash (blocks db1)) fund_call)
               (utcnow fund_call) "VERIFIED"%string),
        snd (fst logged2), db2)
  /\ chain (snd (fst logged2)) <> chain (snd (fst logged1))
  /\ create_block logger0 db1 water_call = (inl IntegrityError, logger0, db1).
Proof.
  assert (HR : reachable (snd (fst logged1)) db1).
  { exact (reach_call logger0 db0 water_call reach_new). }
  assert (E : create_block (snd (fst logged1)) db1 fund_call
              = (inr (mkReceipt 2 (tail_hash (blocks db1))
                        (block_hash (tail_hash (blocks db1)) fund_call)
                        (utcnow fund_call) "VERIFIED"%string),
                 snd (fst logged2), db2)).
  { vm_compute; reflexivity. }
  split; [exact HR|]. split; [exact E|]. split.
  - pose proof (cached_tail_updated_iff_success (snd (fst logged1)) db1
                  fund_call) as [_ H].
    specialize (H HR). apply (H _ _ _ E).
  - vm_compute; reflexivity.
Defined.

(** C8 (as the code has it).  K calls on one logger over a new file take
    turns in any order, and all of them return.  Then the table holds one
    row per call with the ids 1..K, the row of every receipt is stored,
    and all current digests differ.  When the turns keep the calls apart,
    at most one at a time between its read of [self.chain] and its
    assignment to it, the first row names the genesis sentinel, each
    later row names its predecessor's digest, no two rows after the first
    name the same [previous_hash], and [verify_chain] reports no break.
    Running the calls from start to end, one after the other, keeps
    them apart.  The class takes no lock, so the turns need not. *)
Theorem interleaved_appends_recorded sched cs pool self' db' :
  run_schedule sched logger0 db0 (map Called cs) = (pool, self', db') ->
  (forall t, In t pool -> exists r, t = Returned r) ->
  map id (select_all db') = map Z.of_nat (seq 1 (List.length cs))
  /\ (forall r, In (Returned r) pool ->
        exists b, In b (select_all db') /\ links b = receipt_links r)
  /\ NoDup (map current_hash (select_all db'))
  /\ (one_at_a_time sched logger0 db0 (map Called cs) = true ->
      linked_from genesis (select_all db')
      /\ NoDup (map previous_hash (tl (select_all db')))
      /\ valid (verify_chain db') = true)
  /\ one_at_a_time (serial_from 0 (List.length cs)) logger0 db0
                   (map Called cs) = true.
Proof.
  intros H Hret.
  assert (HN0 : numbered db0) by (split; reflexivity).
  assert (HU0 : NoDup (map current_hash (blocks db0))) by constructor.
  assert (HC0 : List.length (filter committed (map Called cs))
                = List.length (blocks db0)).
  { clear. induction cs; simpl; auto. }
  assert (HR0 : Forall (recorded db0) (map Called cs)).
  { clear. induction cs; simpl; constructor; simpl; auto. }
  destruct (run_schedule_keeps _ _ _ _ _ _ _ H HN0 HU0 HC0 HR0)
    as (HN & HU & HC & HR & HL).
  rewrite (all_committed pool Hret), HL, length_map in HC.
  rewrite verify_chain_scan, (numbered_select_all _ HN).
  split; [destruct HN as [Hid _]; rewrite Hid, <- HC; reflexivity|].
  split; [intros r Hr; apply (proj1 (Forall_forall _ _) HR _ Hr)|].
  split; [exact HU|]. split; [|apply serial_one_at_a_time]. intros Hone.
  assert (Hlinked : linked_from genesis (blocks db')).
  { apply (run_schedule_in_step _ _ _ _ _ _ _ H
             (one_at_a_time_prefix _ _ _ _ Hone)).
    - exact I.
    - clear. induction cs; simpl; constructor; simpl; auto.
    - reflexivity. }
  split; [exact Hlinked|].
  destruct (blocks db') as [|b rest]; [split; [constructor | reflexivity]|].
  destruct Hlinked as [Hg Hrest]. split.
  - apply (linked_no_fork rest _ Hrest HU).
  - apply scan_valid. split; [reflexivity | exact Hrest].
Qed.

Lemma interleaved_appends_recorded_witness :
  run_schedule (serial_from 0 2) logger0 db0
               [Called water_call; Called fund_call]
  = (map outcome (fst (fst logged2)), snd (fst logged2), db2)
  /\ one_at_a_time (serial_from 0 2) logger0 db0
                   [Called water_call; Called fund_call] = true
  /\ map id (select_all db2) = [1; 2]
  /\ valid (verify_chain db2) = true
  /\ one_at_a_time racing logger0 db0
                   [Called water_call; Called fund_call] = false
  /\ map id (select_all (snd raced)) = [1; 2]
  /\ NoDup (map current_hash (select_all (snd raced))).
Proof.
  assert (E : run_schedule (serial_from 0 2) logger0 db0
                [Called water_call; Called fund_call]
              = (map outcome (fst (fst logged2)), snd (fst logged2), db2)).
  { vm_compute; reflexivity. }
  assert (E' : run_schedule racing logger0 db0
                 [Called water_call; Called fund_call]
               = (fst (fst raced), snd (fst raced), snd raced)).
  { vm_compute; reflexivity. }
  pose proof (interleaved_appends_recorded (serial_from 0 2)
                [water_call; fund_call]) as H.
  specialize (H _ _ _ E).
  pose proof (interleaved_appends_recorded racing
                [water_call; fund_call]) as H'.
  specialize (H' _ _ _ E').
  destruct H as (Hid & _ & _ & Hv & E1).
  - vm_compute. intros t [<-|[<-|[]]]; eexists; reflexivity.
  - destruct H' as (Hid' & _ & HU' & _ & _).
    + vm_compute. intros t [<-|[<-|[]]]; eexists; reflexivity.
    + split; [exact E|]. split; [exact E1|].
      specialize (Hv E1). destruct Hv as (_ & _ & Hv).
      split; [exact Hid|]. split; [exact Hv|].
      split; [vm_compute; reflexivity|].
      split; [exact Hid' | exact HU'].
Defined.

(** C8, the claim as stated fails: two calls on one logger over a new
    file take turns.  Both read the empty cached tail before either has
    inserted, both return a receipt, the table holds the ids 1 and 2, the
    two rows name the same [previous_hash], and [verify_chain] reports a
    break at block 2. *)
Lemma interleaved_appends_fork :
  (forall t, In t (fst (fst raced)) -> exists r, t = Returned r)
  /\ map id (select_all (snd raced)) = [1; 2]
  /\ map previous_hash (select_all (snd raced)) = [genesis; genesis]
  /\ valid (verify_chain (snd raced)) = false
  /\ exists h, verify_chain (snd raced) = INVALID_CHAIN 2 h genesis.
Proof.
  split.
  - vm_compute. intros t [<-|[<-|[]]]; eexists; reflexivity.
  - repeat split; try (vm_compute; reflexivity).
    eexists. vm_compute. reflexivity.
Qed.

(** C9.  For every run of calls by a logger over a new file, the rows in
    ascending order of id carry the ids 1..N, N the number of calls that
    succeeded, and these are the ids the receipts returned, in order. *)
Theorem sequence_ids_gap_free self cs rs self' db' :
  run_calls self empty_db cs = (rs, self', db') ->
  map id (select_all db')
  = map Z.of_nat (seq 1 (List.length (receipts rs)))
  /\ map block_id (receipts rs) = map id (select_all db').
Proof.
  intros H.
  assert (HN0 : numbered empty_db) by (split; reflexivity).
  destruct (run_calls_numbered _ _ _ _ _ _ HN0 H) as [HN HL].
  destruct (run_calls_appends _ _ _ _ _ _ H) as (news & Hb & _ & Hm).
  rewrite (numbered_select_all _ HN). split.
  - destruct HN as [Hid _]. rewrite Hid, HL. reflexivity.
  - rewrite Hb. simpl.
    apply (f_equal (map (fun x => fst (fst x)))) in Hm.
    rewrite !map_map in Hm. symmetry. exact Hm.
Qed.

Lemma sequence_ids_gap_free_witness :
  run_calls logger0 empty_db [water_call; fund_call]
  = (fst (fst logged2), snd (fst logged2), db2)
  /\ map id (select_all db2) = [1; 2].
Proof.
  assert (E : run_calls logger0 empty_db [water_call; fund_call]
              = (fst (fst logged2), snd (fst logged2), db2)).
  { vm_compute; reflexivity. }
  split; [exact E|].
  pose proof (sequence_ids_gap_free logger0 [water_call; fund_call]) as H.
  specialize (H _ _ _ E). destruct H as [H _].
  rewrite H. vm_compute; reflexivity.
Defined.

(** C10.  Every receipt a successful call returns has ["integrity"] equal
    to the constant text VERIFIED: [create_block] never runs the
    verifier.  A call on a ledger whose chain is broken before and after
    the append returns the same text. *)
Theorem integrity_field_constant :
  (forall self db c r self' db',
     create_block self db c = (inr r, self', db') ->
     integrity r = "VERIFIED"%string)
  /\ valid (verify_chain (snd raced)) = false
  /\ exists r self' db',
       create_block (snd (fst raced)) (snd raced) later_call
       = (inr r, self', db')
       /\ integrity r = "VERIFIED"%string
       /\ valid (verify_chain db') = false.
Proof.
  split; [|split].
  - intros self db c r self' db' H.
    apply create_block_inr in H as (_ & _ & _ & -> & _). reflexivity.
  - vm_compute; reflexivity.
  - do 3 eexists. split; [vm_compute; reflexivity|].
    split; vm_compute; reflexivity.
Qed.

Lemma integrity_field_constant_witness :
  create_block (snd (fst logged1)) db1 fund_call
  = (inr (mkReceipt 2 (tail_hash (blocks db1))
            (block_hash (tail_hash (blocks db1)) fund_call)
            (utcnow fund_call) "VERIFIED"%string),
     snd (fst logged2), db2)
  /\ integrity (mkReceipt 2 (tail_hash (blocks db1))
                  (block_hash (tail_hash (blocks db1)) fund_call)
                  (utcnow fund_call) "VERIFIED"%string)
     = "VERIFIED"%string.
Proof.
  assert (E : create_block (snd (fst logged1)) db1 fund_call
              = (inr (mkReceipt 2 (tail_hash (blocks db1))
                        (block_hash (tail_hash (blocks db1)) fund_call)
                        (utcnow fund_call) "VERIFIED"%string),
                 snd (fst logged2), db2)).
  { vm_compute; reflexivity. }
  split; [exact E|].
  pose proof integrity_field_constant as [H _].
  apply (H _ _ _ _ _ _ E).
Defined.

(* ================================================================= *)
(** * Further properties of the ledger *)

(** ** Linked rows *)

Lemma last_hash_snoc (h : string) (rows : list row) (b : row) :
  last_hash h (rows ++ [b]) = current_hash b.
Proof. unfold last_hash. rewrite rev_unit. reflexivity. Qed.

Lemma last_hash_cons (h : string) (r : row) (rows : list row) :
  last_hash h (r :: rows) = last_hash (current_hash r) rows.
Proof.
  unfold last_hash. simpl.
  destruct (rev rows) as [|x l] eqn:E; reflexivity.
Qed.

Lemma linked_from_app (l l' : list row) : forall h,
  linked_from h (l ++ l') <->
  linked_from h l /\ linked_from (last_hash h l) l'.
Proof.
  induction l as [|r l IH]; intros h; simpl.
  - unfold last_hash; simpl. tauto.
  - rewrite IH, last_hash_cons. tauto.
Qed.

Lemma all_linked_cons (rest : list row) : forall b,
  all_linked (b :: rest) <-> linked_from (current_hash b) rest.
Proof.
  induction rest as [|c rest IH]; intros b.
  - split; [simpl; auto|]. intros _ [|i] p x Hp Hx; simpl in *;
      [discriminate | destruct i; discriminate].
  - split.
    + intros H. split.
      * apply (H 0%nat b c); reflexivity.
      * apply IH. intros i p x Hp Hx. apply (H (S i) p x); assumption.
    + intros [Hc Hrest] i p x Hp Hx.
      eapply (linked_adjacent (b :: c :: rest) (previous_hash b)); eauto.
      simpl. auto.
Qed.

Lemma verify_chain_valid_iff (db : database) :
  valid (verify_chain db) = true <-> all_linked (select_all db).
Proof.
  rewrite verify_chain_scan. destruct (select_all db) as [|b rest].
  - split; [|reflexivity]. intros _ [|i] p x Hp; discriminate.
  - rewrite all_linked_cons, <- scan_valid. simpl. tauto.
Qed.

Lemma scan_break (rest : list row) : forall p n i e a,
  Spec.scan (current_hash p) n rest = INVALID_CHAIN i e a ->
  exists pre p' c post,
    p :: rest = pre ++ p' :: c :: post
    /\ all_linked (pre ++ [p'])
    /\ i = id c /\ e = current_hash p' /\ a = previous_hash c /\ a <> e.
Proof.
  induction rest as [|c rest IH]; intros p n i e a H; simpl in H.
  - discriminate.
  - destruct (String.eqb_spec (previous_hash c) (current_hash p)) as [E|E];
      simpl in H.
    + destruct (IH c n i e a H) as (pre & p' & c' & post & Hs & Hl & Hi).
      exists (p :: pre), p', c', post. split; [rewrite Hs; reflexivity|].
      split; [|exact Hi].
      simpl. apply all_linked_cons.
      destruct pre as [|x pre]; simpl in *.
      * injection Hs as <- _. split; [exact E | exact I].
      * injection Hs as <- _. split; [exact E|].
        apply all_linked_cons. exact Hl.
    + inversion H; subst. exists [], p, c, rest.
      repeat split; auto.
      intros [|j] x y Hx Hy; simpl in *;
        [discriminate | destruct j; discriminate].
Qed.

Lemma scan_finds_break (l : list row) : forall h n c post,
  linked_from h l ->
  previous_hash c <> last_hash h l ->
  Spec.scan h n (l ++ c :: post)
  = INVALID_CHAIN (id c) (last_hash h l) (previous_hash c).
Proof.
  induction l as [|r l IH]; intros h n c post HL Hne; simpl.
  - unfold last_hash in *; simpl in *.
    destruct (String.eqb_spec (previous_hash c) h); [contradiction|].
    reflexivity.
  - destruct HL as [Hr HL]. rewrite Hr, String.eqb_refl. simpl.
    rewrite last_hash_cons in *. apply IH; auto.
Qed.

(** ** Tables stored in key order *)

Lemma sorted_app_inv (l l' : list Z) :
  Sorted Z.lt (l ++ l') -> Sorted Z.lt l /\ Sorted Z.lt l'.
Proof.
  induction l as [|x l IH]; simpl; intros H.
  - split; [constructor | exact H].
  - inversion H as [|? ? HS Hd]; subst.
    destruct (IH HS) as [H1 H2]. split; [|exact H2].
    constructor; [exact H1|].
    destruct l; simpl in *; [constructor|].
    inversion Hd; subst. constructor. assumption.
Qed.

Lemma sorted_snoc (l : list Z) (x : Z) :
  Sorted Z.lt l -> (forall y, In y l -> y < x) -> Sorted Z.lt (l ++ [x]).
Proof.
  induction l as [|y l IH]; simpl; intros HS Hlt.
  - repeat constructor.
  - inversion HS as [|? ? HS' Hd]; subst. constructor.
    + apply IH; auto.
    + destruct l; simpl in *.
      * constructor. apply Hlt. auto.
      * inversion Hd; subst. constructor. assumption.
Qed.

Lemma largest_id_bound (rows : list row) (b : row) :
  In b rows -> id b <= largest_id rows.
Proof.
  unfold largest_id. induction rows as [|r rows IH]; simpl; intros H.
  - contradiction.
  - destruct H as [->|H]; [lia|]. specialize (IH H). lia.
Qed.

Lemma next_rowid_fresh (db : database) (b : row) :
  In b (blocks db) -> id b < next_rowid db.
Proof.
  intros H. apply largest_id_bound in H. unfold next_rowid. lia.
Qed.

Lemma create_block_sorted self db c r self' db' :
  Sorted Z.lt (map id (blocks db)) ->
  create_block self db c = (r, self', db') ->
  Sorted Z.lt (map id (blocks db'))
  /\ sqlite_sequence db <= sqlite_sequence db'
  /\ largest_id (blocks db) <= largest_id (blocks db').
Proof.
  intros HS H. destruct r as [e|x].
  - apply create_block_inl in H as [-> ->]. repeat split; auto; lia.
  - apply create_block_inr in H as (_ & _ & _ & _ & _ & ->). simpl.
    rewrite map_app. simpl. split; [|split].
    + apply sorted_snoc; [exact HS|].
      intros y Hy. apply in_map_iff in Hy as (b & <- & Hb).
      apply next_rowid_fresh. exact Hb.
    + unfold next_rowid. lia.
    + unfold largest_id. rewrite map_app, fold_right_app. simpl.
      fold (largest_id (blocks db)).
      assert (G : forall l a, a <= fold_right Z.max a l).
      { induction l; simpl; intros; [lia|]. specialize (IHl a0). lia. }
      assert (M : forall l a a', a <= a' ->
                  fold_right Z.max a l <= fold_right Z.max a' l).
      { induction l; simpl; intros; [lia|]. specialize (IHl _ _ H). lia. }
      apply M. lia.
Qed.

Lemma sorted_select_all (db : database) :
  Sorted Z.lt (map id (blocks db)) -> select_all db = blocks db.
Proof. apply order_by_id_sorted. Qed.

(** ** The ledgers the class writes are linked from the genesis value *)

Lemma linked_from_snoc (h : string) (rows : list row) (b : row) :
  linked_from h rows -> previous_hash b = last_hash h rows ->
  linked_from h (rows ++ [b]).
Proof.
  intros HL Hb. apply linked_from_app. split; [exact HL|].
  simpl. auto.
Qed.

Lemma create_block_linked self db c r self' db' :
  cached_previous self = tail_hash (blocks db) ->
  linked_from genesis (blocks db) ->
  create_block self db c = (r, self', db') ->
  linked_from genesis (blocks db').
Proof.
  intros HT HL H. destruct r as [e|x].
  - apply create_block_inl in H as [-> ->]. exact HL.
  - apply create_block_inr in H as (_ & _ & _ & _ & _ & ->). simpl.
    apply linked_from_snoc; [exact HL|]. simpl. exact HT.
Qed.

Lemma reachable_linked self db :
  reachable self db -> linked_from genesis (blocks db).
Proof.
  induction 1 as [|self db c HR IH|self db HR IH].
  - simpl. exact I.
  - destruct (create_block self db c) as [[r self1] db1] eqn:E. simpl.
    apply reachable_consistent in HR as (_ & HT & _).
    eapply create_block_linked; eauto.
  - exact IH.
Qed.

Lemma scan_linked_valid (rows : list row) : forall h n,
  linked_from h rows -> Spec.scan h n rows = VALID_CHAIN n.
Proof.
  induction rows as [|r rows IH]; intros h n HL; simpl.
  - reflexivity.
  - destruct HL as [-> HL]. rewrite String.eqb_refl. simpl. auto.
Qed.

Lemma all_linked_segment (pre mid post : list row) :
  all_linked (pre ++ mid ++ post) -> all_linked mid.
Proof.
  intros H i p b Hp Hb.
  assert (Hi : (S i < List.length mid)%nat)
    by (apply nth_error_Some; congruence).
  apply (H (List.length pre + i)%nat p b).
  - rewrite nth_error_app2 by lia.
    replace (List.length pre + i - List.length pre)%nat with i by lia.
    rewrite nth_error_app1 by lia. exact Hp.
  - rewrite nth_error_app2 by lia.
    replace (S (List.length pre + i) - List.length pre)%nat with (S i) by lia.
    rewrite nth_error_app1 by lia. exact Hb.
Qed.

Lemma linked_head (rows : list row) (b : row) (rest : list row) :
  rows = b :: rest -> all_linked rows ->
  linked_from (previous_hash b) rows.
Proof.
  intros -> H. simpl. split; [reflexivity|]. apply all_linked_cons, H.
Qed.

Lemma verify_chain_rows (rows : list row) (seq : Z) :
  Sorted Z.lt (map id rows) ->
  verify_chain (mkDb rows seq)
  = match rows with
    | [] => EMPTY_CHAIN
    | b :: _ => Spec.scan (previous_hash b) (List.length rows) rows
    end.
Proof.
  intros HS. rewrite verify_chain_scan.
  rewrite (sorted_select_all (mkDb rows seq) HS). simpl.
  destruct rows; reflexivity.
Qed.

(** ** A call depends on the logger through the cached digest only *)

Lemma create_block_cached self1 self2 db c :
  cached_previous self1 = cached_previous self2 ->
  fst (fst (create_block self1 db c)) = fst (fst (create_block self2 db c))
  /\ snd (create_block self1 db c) = snd (create_block self2 db c).
Proof.
  intros E. unfold create_block. rewrite E.
  destruct (storage_fails c); [split; reflexivity|].
  destruct (insert_block _ _ _ _ _ _ _ _ _ _) as [e|[rowid db']];
    split; reflexivity.
Qed.

(** ** ORDER BY id keeps the rows; the newest rows first *)

Lemma insert_by_id_length (r : row) (l : list row) :
  List.length (insert_by_id r l) = S (List.length l).
Proof.
  induction l as [|x l IH]; simpl; [reflexivity|].
  destruct (id r <=? id x); simpl; auto.
Qed.

Lemma order_by_id_length (rows : list row) :
  List.length (order_by_id rows) = List.length rows.
Proof.
  induction rows as [|r rows IH]; [reflexivity|].
  change (order_by_id (r :: rows)) with (insert_by_id r (order_by_id rows)).
  rewrite insert_by_id_length, IH. reflexivity.
Qed.

Lemma sql_limit_prefix {A : Type} (limit : Z) (l : list A) :
  exists k, sql_limit limit l = firstn k l.
Proof.
  unfold sql_limit. destruct (limit <? 0).
  - exists (List.length l). rewrite firstn_all. reflexivity.
  - eexists. reflexivity.
Qed.

Lemma rev_linked (rows : list row) :
  all_linked rows ->
  forall i a b,
    nth_error (rev rows) i = Some a -> nth_error (rev rows) (S i) = Some b ->
    previous_hash a = current_hash b.
Proof.
  intros H i a b Ha Hb. rewrite nth_error_rev in Ha, Hb.
  destruct (Nat.ltb_spec (S i) (List.length rows)) as [Hlt|]; [|discriminate].
  destruct (Nat.ltb_spec i (List.length rows)) as [_|]; [|lia].
  apply (H (List.length rows - S (S i))%nat b a Hb).
  replace (S (List.length rows - S (S i))) with (List.length rows - S i)%nat
    by lia.
  exact Ha.
Qed.

Lemma rev_count_down (n : nat) :
  rev (map Z.of_nat (seq 1 n))
  = map (fun j => Z.of_nat n - Z.of_nat j) (seq 0 n).
Proof.
  induction n as [|n IH].
  - reflexivity.
  - rewrite seq_S, map_app, rev_app_distr, IH.
    change (rev (map Z.of_nat [(1 + n)%nat])) with [Z.of_nat (S n)].
    change (seq 0 (S n)) with (0%nat :: seq 1 n).
    rewrite <- seq_shift, !map_cons, map_map. simpl app.
    apply (f_equal2 cons); [lia|]. apply map_ext. intros j. lia.
Qed.

Lemma firstn_count (k n s : nat) : firstn k (seq s n) = seq s (Nat.min k n).
Proof.
  revert s n; induction k as [|k IH]; intros s [|n]; simpl; auto.
  f_equal. apply IH.
Qed.

Lemma reachable_all_linked self db :
  reachable self db -> all_linked (blocks db).
Proof.
  intros HR i p b Hp Hb.
  eapply linked_adjacent; eauto using reachable_linked.
Qed.

(** ** The logging methods *)

Lemma text_or_null_inv (v : json) (o : option pystr) :
  text_or_null v = Some o -> v = of_optional o.
Proof. destruct v; simpl; intros H; inversion H; reflexivity. Qed.

Lemma text_inv (v : json) (s : pystr) : text v = Some s -> v = JStr s.
Proof. destruct v; simpl; intros H; inversion H; reflexivity. Qed.

(** Either method as the call it passes to [create_block]. *)
Lemma log_water_anomaly_inv self db now fails d r self' db' :
  log_water_anomaly self db now fails d = Some (r, self', db') ->
  (exists e, first_anomaly d = inl e
             /\ r = inl (PyError e) /\ self' = self /\ db' = db)
  \/ (exists sensor kind level r0,
        Py.get d (ustr "sensor_id") JNull = of_optional sensor
        /\ first_anomaly d = inr (of_optional kind)
        /\ Py.get d (ustr "severity") (JStr (ustr "LOW")) = JStr level
        /\ create_block self db
             (mkCall now fails (ustr "WATER_ANOMALY") sensor None kind level
                     (JDict d)) = (r0, self', db')
        /\ r = lift_result r0).
Proof.
  unfold log_water_anomaly.
  destruct (first_anomaly d) as [e|v] eqn:Ef.
  - intros H; inversion H; subst. left. exists e. auto.
  - destruct (text_or_null (Py.get d (ustr "sensor_id") JNull))
      as [sensor|] eqn:Es; [|discriminate].
    destruct (text_or_null v) as [kind|] eqn:Ek; [|discriminate].
    destruct (text (Py.get d (ustr "severity") (JStr (ustr "LOW"))))
      as [level|] eqn:El; [|discriminate].
    destruct (create_block _ _ _) as [[r0 s1] d1] eqn:Ec.
    intros H; inversion H; subst. right.
    exists sensor, kind, level, r0.
    apply text_or_null_inv in Es, Ek. apply text_inv in El.
    subst v. auto.
Qed.

Lemma log_fund_anomaly_inv self db now fails d r self' db' :
  log_fund_anomaly self db now fails d = Some (r, self', db') ->
  (exists e, first_anomaly d = inl e
             /\ r = inl (PyError e) /\ self' = self /\ db' = db)
  \/ (exists fund kind level r0,
        Py.get d (ustr "fund_id") JNull = of_optional fund
        /\ first_anomaly d = inr (of_optional kind)
        /\ Py.get d (ustr "severity") (JStr (ustr "LOW")) = JStr level
        /\ create_block self db
             (mkCall now fails (ustr "FUND_ANOMALY") None fund kind level
                     (JDict d)) = (r0, self', db')
        /\ r = lift_result r0).
Proof.
  unfold log_fund_anomaly.
  destruct (first_anomaly d) as [e|v] eqn:Ef.
  - intros H; inversion H; subst. left. exists e. auto.
  - destruct (text_or_null (Py.get d (ustr "fund_id") JNull))
      as [fund|] eqn:Es; [|discriminate].
    destruct (text_or_null v) as [kind|] eqn:Ek; [|discriminate].
    destruct (text (Py.get d (ustr "severity") (JStr (ustr "LOW"))))
      as [level|] eqn:El; [|discriminate].
    destruct (create_block _ _ _) as [[r0 s1] d1] eqn:Ec.
    intros H; inversion H; subst. right.
    exists fund, kind, level, r0.
    apply text_or_null_inv in Es, Ek. apply text_inv in El.
    subst v. auto.
Qed.

Lemma of_optional_inj (a b : option pystr) :
  of_optional a = of_optional b -> a = b.
Proof. destruct a, b; simpl; intros H; inversion H; reflexivity. Qed.

Lemma lift_result_inr r0 r : lift_result r0 = inr r -> r0 = inr r.
Proof. destruct r0; simpl; intros H; inversion H; reflexivity. Qed.

Lemma logged_reachable self db : logged self db -> reachable self db.
Proof.
  induction 1 as [|self db now fails d r self' db' HL IH H
                  |self db now fails d r self' db' HL IH H].
  - constructor.
  - apply log_water_anomaly_inv in H
      as [(e & _ & _ & -> & ->)|(s & k & l & r0 & _ & _ & _ & Hc & _)].
    + exact IH.
    + match type of Hc with
      | create_block _ _ ?c = _ =>
          pose proof (reach_call self db c IH) as HR
      end.
      rewrite Hc in HR. exact HR.
  - apply log_fund_anomaly_inv in H
      as [(e & _ & _ & -> & ->)|(s & k & l & r0 & _ & _ & _ & Hc & _)].
    + exact IH.
    + match type of Hc with
      | create_block _ _ ?c = _ =>
          pose proof (reach_call self db c IH) as HR
      end.
      rewrite Hc in HR. exact HR.
Qed.

Lemma first_anomaly_kind d k v others :
  Py.lookup d (ustr "anomalies")
  = Some (JList (JList (JStr k :: v) :: others)) ->
  first_anomaly d = inr (JStr k).
Proof.
  intros H. unfold first_anomaly, Py.get. rewrite H. reflexivity.
Qed.

Lemma first_anomaly_none d :
  Py.truthy (Py.get d (ustr "anomalies") JNull) = false ->
  first_anomaly d = inr JNull.
Proof. intros H. unfold first_anomaly. rewrite H. reflexivity. Qed.

Lemma first_anomaly_raises d a others e :
  Py.lookup d (ustr "anomalies") = Some (JList (a :: others)) ->
  Py.item0 a = inl e ->
  first_anomaly d = inl e.
Proof.
  intros H Ha. unfold first_anomaly, Py.get. rewrite H. simpl.
  rewrite Ha. reflexivity.
Qed.

Lemma logged_typed self db :
  logged self db ->
  Forall (fun b =>
            (data_type b = ustr "WATER_ANOMALY" /\ fund_id b = None)
            \/ (data_type b = ustr "FUND_ANOMALY" /\ sensor_id b = None))
         (blocks db).
Proof.
  induction 1 as [|self db now fails d r self' db' HL IH H
                  |self db now fails d r self' db' HL IH H].
  - constructor.
  - apply log_water_anomaly_inv in H
      as [(e & _ & _ & -> & ->)|(s & k & l & r0 & _ & _ & _ & Hc & _)];
      [exact IH|].
    destruct r0 as [x|x].
    + apply create_block_inl in Hc as [_ ->]. exact IH.
    + apply create_block_inr in Hc as (_ & _ & _ & _ & _ & ->). simpl.
      apply Forall_app. split; [exact IH|].
      constructor; [|constructor]. left. split; reflexivity.
  - apply log_fund_anomaly_inv in H
      as [(e & _ & _ & -> & ->)|(s & k & l & r0 & _ & _ & _ & Hc & _)];
      [exact IH|].
    destruct r0 as [x|x].
    + apply create_block_inl in Hc as [_ ->]. exact IH.
    + apply create_block_inr in Hc as (_ & _ & _ & _ & _ & ->). simpl.
      apply Forall_app. split; [exact IH|].
      constructor; [|constructor]. right. split; reflexivity.
Qed.

(** ** The dashboard's counts *)

Import Dashboard.

Lemma str_eqb_eq (a b : pystr) : Py.str_eqb a b = true <-> a = b.
Proof.
  revert b; induction a as [|x a IH]; intros [|y b]; simpl;
    try (split; [discriminate | intros H; inversion H]; fail).
  - tauto.
  - rewrite andb_true_iff, N.eqb_eq, IH. split.
    + intros [-> ->]. reflexivity.
    + intros H; inversion H; auto.
Qed.

Lemma water_not_fund (r : row) : is_water r && is_fund r = false.
Proof.
  unfold is_water, is_fund.
  destruct (Py.str_eqb (data_type r) (ustr "WATER_ANOMALY")) eqn:E;
    [|reflexivity].
  apply str_eqb_eq in E. rewrite E. reflexivity.
Qed.

Lemma count_disjoint (p q : row -> bool) (rows : list row) :
  (forall r, p r && q r = false) ->
  (List.length (filter p rows) + List.length (filter q rows)
   <= List.length rows)%nat.
Proof.
  intros H. induction rows as [|r rows IH]; simpl; [lia|].
  specialize (H r). destruct (p r), (q r); simpl in *;
    try discriminate; lia.
Qed.

Lemma count_partition (p q : row -> bool) (rows : list row) :
  Forall (fun r => xorb (p r) (q r) = true) rows ->
  (List.length (filter p rows) + List.length (filter q rows)
   = List.length rows)%nat.
Proof.
  induction 1 as [|r rows Hr HF IH]; simpl; [reflexivity|].
  destruct (p r), (q r); simpl in *; try discriminate; lia.
Qed.

Lemma count_where_snoc (p : row -> bool) (rows : list row) (b : row) seq seq' :
  count_where p (mkDb (rows ++ [b]) seq')
  = count_where p (mkDb rows seq) + (if p b then 1 else 0).
Proof.
  unfold count_where. simpl. rewrite filter_app, length_app. simpl.
  destruct (p b); simpl; lia.
Qed.

Lemma count_where_grows (p : row -> bool) (old new : database) more :
  blocks new = blocks old ++ more ->
  count_where p old <= count_where p new.
Proof.
  intros H. unfold count_where. rewrite H, filter_app, length_app. lia.
Qed.

Lemma count_where_bounds (p : row -> bool) (db : database) :
  0 <= count_where p db <= count_where (fun _ => true) db.
Proof.
  unfold count_where. split; [lia|]. apply inj_le.
  induction (blocks db) as [|r rows IH]; simpl; [lia|].
  destruct (p r); simpl; lia.
Qed.

Lemma count_all (db : database) :
  count_where (fun _ => true) db = Z.of_nat (List.length (blocks db)).
Proof.
  unfold count_where. f_equal.
  induction (blocks db) as [|r rows IH]; simpl; [reflexivity | f_equal; auto].
Qed.

(** ** The dashboard's integrity query *)

Lemma no_issues_iff (db : database) :
  count_issues db = 0 <->
  forall b1 b2, In b1 (blocks db) -> In b2 (blocks db) ->
                id b1 = id b2 - 1 -> current_hash b1 = previous_hash b2.
Proof.
  unfold count_issues. split.
  - intros H b1 b2 H1 H2 Hid.
    destruct (String.eqb_spec (current_hash b1) (previous_hash b2)) as [E|E];
      [exact E|].
    exfalso.
    assert (Hin : In (b1, b2)
                    (filter (fun b12 : row * row =>
                               let (x, y) := b12 in
                               (id x =? id y - 1)
                               && negb (String.eqb (current_hash x)
                                                   (previous_hash y)))
                            (list_prod (blocks db) (blocks db)))).
    { apply filter_In. split; [apply in_prod; assumption|].
      apply andb_true_intro. split; [apply Z.eqb_eq; exact Hid|].
      apply negb_true_iff. apply String.eqb_neq. exact E. }
    destruct (filter _ _); [contradiction | discriminate].
  - intros H.
    destruct (filter _ _) as [|[b1 b2] l] eqn:E; [reflexivity|].
    exfalso.
    assert (Hin : In (b1, b2) ((b1, b2) :: l)) by (left; reflexivity).
    rewrite <- E in Hin. apply filter_In in Hin as [Hp Hf].
    apply in_prod_iff in Hp as [H1 H2].
    apply andb_prop in Hf as [Hid Hne].
    apply Z.eqb_eq in Hid. apply negb_true_iff in Hne.
    apply String.eqb_neq in Hne. apply Hne. apply H; assumption.
Qed.



Lemma sorted_pairs (rows : list row) : forall h b1 b2,
  Sorted Z.lt (map id rows) ->
  linked_from h rows ->
  In b1 rows -> In b2 rows -> id b1 = id b2 - 1 ->
  current_hash b1 = previous_hash b2.
Proof.
  induction rows as [|r rest IH]; intros h b1 b2 HS HL H1 H2 Hd.
  - contradiction.
  - simpl in HS.
    pose proof (Sorted_StronglySorted Z.lt_trans HS) as HSS.
    inversion HSS as [|? ? _ Hall]; subst.
    rewrite Forall_forall in Hall.
    assert (Hgt : forall b, In b rest -> id r < id b).
    { intros b Hb. apply Hall. apply in_map. exact Hb. }
    inversion HS as [|? ? HS' _]; subst.
    destruct HL as [_ HL].
    destruct H1 as [<-|H1], H2 as [<-|H2].
    + lia.
    + destruct rest as [|c rest']; [contradiction|].
      destruct HL as [Hc HL'].
      destruct H2 as [<-|H2]; [symmetry; exact Hc|].
      exfalso.
      simpl in HS'.
      pose proof (Sorted_StronglySorted Z.lt_trans HS') as HSS'.
      inversion HSS' as [|? ? _ Hall']; subst.
      rewrite Forall_forall in Hall'.
      assert (id c < id b2) by (apply Hall'; apply in_map; exact H2).
      assert (id r < id c) by (apply Hgt; left; reflexivity).
      lia.
    + specialize (Hgt b1 H1). lia.
    + eapply IH; eauto.
Qed.

(** ** The water detector *)

Import Detector.

Lemma less_true (a b : QArith_base.Q) :
  less a b = true <-> QArith_base.Qlt a b.
Proof.
  unfold less. rewrite negb_true_iff. split.
  - intros H. apply QArith_base.Qnot_le_lt. intros Hle.
    apply QArith_base.Qle_bool_iff in Hle. congruence.
  - intros H. destruct (QArith_base.Qle_bool b a) eqn:E; [|reflexivity].
    apply QArith_base.Qle_bool_iff in E.
    exfalso. exact (QArith_base.Qlt_not_le _ _ H E).
Qed.


Lemma substring_length (n : nat) : forall s,
  (n <= String.length s)%nat -> String.length (String.substring 0 n s) = n.
Proof.
  induction n as [|n IH]; intros s H.
  - destruct s; reflexivity.
  - destruct s as [|c s]; simpl in *; [lia|]. f_equal. apply IH. lia.
Qed.

Lemma hash_data_length (data : list (pystr * json)) :
  String.length (hash_data data) = 16%nat.
Proof.
  unfold hash_data. apply substring_length.
  rewrite hexdigest_length. lia.
Qed.






Import Sample.
(* ================================================================= *)
(** * Further results *)

(** ** verify_chain *)

(** X1.  A ledger that only the class has written, on one logger at a
    time from a new file, verifies: [verify_chain] returns EMPTY_CHAIN
    when nothing was logged and VALID_CHAIN with the number of rows
    otherwise. *)
Theorem untouched_ledger_verifies self db :
  reachable self db ->
  verify_chain db
  = match blocks db with
    | [] => EMPTY_CHAIN
    | _ :: _ => VALID_CHAIN (List.length (blocks db))
    end.
Proof.
  intros HR. pose proof (reachable_linked _ _ HR) as HL.
  apply reachable_consistent in HR as (HN & _ & _).
  rewrite verify_chain_scan, (numbered_select_all db HN).
  destruct (blocks db) as [|b rest]; [reflexivity|].
  apply scan_linked_valid. destruct HL as [_ HL].
  split; [reflexivity | exact HL].
Qed.

Lemma untouched_ledger_verifies_witness :
  reachable (snd (fst logged1)) db1
  /\ verify_chain db1 = VALID_CHAIN 1.
Proof.
  assert (HR : reachable (snd (fst logged1)) db1).
  { exact (reach_call logger0 db0 water_call reach_new). }
  split; [exact HR|].
  pose proof (untouched_ledger_verifies _ _ HR) as H.
  rewrite H. vm_compute; reflexivity.
Defined.

(** X2.  [verify_chain] is sound and complete for broken links: it
    reports a valid (or empty) chain exactly when every row after the
    first, in ascending order of id, names as [previous_hash] the
    [current_hash] of the row before it. *)
Theorem verify_chain_sound_complete db :
  valid (verify_chain db) = true <-> all_linked (select_all db).
Proof. apply verify_chain_valid_iff. Qed.

(** X3.  When [verify_chain] reports INVALID_CHAIN, the block it names
    is the first one whose [previous_hash] differs from the
    [current_hash] of the row before it: all rows up to that predecessor
    are linked, [expected_previous] is the predecessor's digest and
    [actual_previous] the block's own [previous_hash]. *)
Theorem verify_chain_first_break db i e a :
  verify_chain db = INVALID_CHAIN i e a ->
  exists pre p c post,
    select_all db = pre ++ p :: c :: post
    /\ all_linked (pre ++ [p])
    /\ i = id c /\ e = current_hash p /\ a = previous_hash c /\ a <> e.
Proof.
  rewrite verify_chain_scan. destruct (select_all db) as [|b rest];
    [discriminate|].
  cbn [Spec.scan]. rewrite String.eqb_refl. cbn [negb].
  apply scan_break.
Qed.

Lemma verify_chain_first_break_witness :
  verify_chain (snd raced)
  = INVALID_CHAIN 2 (block_hash genesis water_call) genesis
  /\ exists pre p c post,
       select_all (snd raced) = pre ++ p :: c :: post
       /\ all_linked (pre ++ [p])
       /\ 2 = id c /\ block_hash genesis water_call = current_hash p
       /\ genesis = previous_hash c
       /\ genesis <> block_hash genesis water_call.
Proof.
  assert (E : verify_chain (snd raced)
              = INVALID_CHAIN 2 (block_hash genesis water_call) genesis)
    by (vm_compute; reflexivity).
  split; [exact E|].
  apply (verify_chain_first_break (snd raced) _ _ _ E).
Defined.

(** X4.  Tamper evidence for a digest: in a table stored in key order
    that verifies, overwriting the [current_hash] of a row that has a
    successor with another value makes [verify_chain] report the
    successor, with the forged value as expected and the original digest
    as actual previous hash. *)
Theorem digest_edit_detected db pre r s post h :
  blocks db = pre ++ r :: s :: post ->
  Sorted Z.lt (map id (blocks db)) ->
  valid (verify_chain db) = true ->
  h <> current_hash r ->
  verify_chain (mkDb (pre ++ set_current_hash h r :: s :: post)
                     (sqlite_sequence db))
  = INVALID_CHAIN (id s) h (current_hash r).
Proof.
  intros Hb HS HV Hh.
  apply verify_chain_valid_iff in HV.
  rewrite (sorted_select_all db HS), Hb in HV.
  assert (Hs : previous_hash s = current_hash r).
  { apply (HV (List.length pre) r s).
    - rewrite nth_error_app2, Nat.sub_diag by lia. reflexivity.
    - rewrite nth_error_app2 by lia.
      replace (S (List.length pre) - List.length pre)%nat with 1%nat by lia.
      reflexivity. }
  rewrite verify_chain_rows.
  2:{ rewrite Hb in HS. rewrite map_app in *. exact HS. }
  set (r' := set_current_hash h r).
  assert (Hgen : forall h0,
            linked_from h0 (pre ++ r :: s :: post) ->
            Spec.scan h0 (List.length (pre ++ r' :: s :: post))
                      (pre ++ r' :: s :: post)
            = INVALID_CHAIN (id s) h (current_hash r)).
  { intros h0 HL.
    change (pre ++ r :: s :: post) with (pre ++ [r] ++ s :: post) in HL.
    rewrite app_assoc in HL.
    apply linked_from_app in HL as [HL _].
    apply linked_from_app in HL as [Hpre [Hr _]].
    change (pre ++ r' :: s :: post) with (pre ++ [r'] ++ s :: post).
    rewrite app_assoc.
    rewrite (scan_finds_break (pre ++ [r']) h0 _ s post).
    - rewrite last_hash_snoc, Hs. reflexivity.
    - apply linked_from_app. split; [exact Hpre|]. simpl. auto.
    - rewrite last_hash_snoc, Hs. simpl. congruence. }
  destruct pre as [|b pre'].
  - apply Hgen. apply (linked_head _ r (s :: post) eq_refl HV).
  - apply Hgen. apply (linked_head _ b _ eq_refl HV).
Qed.

Lemma digest_edit_detected_witness :
  blocks db2 = [first_row; second_row]
  /\ forged_hash <> current_hash first_row
  /\ verify_chain (mkDb [set_current_hash forged_hash first_row; second_row]
                         (sqlite_sequence db2))
     = INVALID_CHAIN (id second_row) forged_hash (current_hash first_row).
Proof.
  assert (E : blocks db2 = [] ++ first_row :: second_row :: [])
    by (vm_compute; reflexivity).
  assert (Hne : forged_hash <> current_hash first_row)
    by (vm_compute; discriminate).
  split; [exact E|]. split; [exact Hne|].
  apply (digest_edit_detected db2 [] first_row second_row [] forged_hash E).
  - vm_compute. repeat constructor.
  - vm_compute; reflexivity.
  - exact Hne.
Defined.

(** X5.  Tamper evidence for a link: in a table stored in key order
    that verifies, overwriting the [previous_hash] of a row that has a
    predecessor with another value makes [verify_chain] report that row,
    with the predecessor's digest as expected and the forged value as
    actual previous hash. *)
Theorem previous_hash_edit_detected db pre p r post h :
  blocks db = pre ++ p :: r :: post ->
  Sorted Z.lt (map id (blocks db)) ->
  valid (verify_chain db) = true ->
  h <> previous_hash r ->
  verify_chain (mkDb (pre ++ p :: set_previous_hash h r :: post)
                     (sqlite_sequence db))
  = INVALID_CHAIN (id r) (current_hash p) h.
Proof.
  intros Hb HS HV Hh.
  apply verify_chain_valid_iff in HV.
  rewrite (sorted_select_all db HS), Hb in HV.
  assert (Hr : previous_hash r = current_hash p).
  { apply (HV (List.length pre) p r).
    - rewrite nth_error_app2, Nat.sub_diag by lia. reflexivity.
    - rewrite nth_error_app2 by lia.
      replace (S (List.length pre) - List.length pre)%nat with 1%nat by lia.
      reflexivity. }
  rewrite verify_chain_rows.
  2:{ rewrite Hb in HS. rewrite map_app in *. exact HS. }
  set (r' := set_previous_hash h r).
  assert (Hgen : forall h0,
            linked_from h0 (pre ++ p :: r :: post) ->
            Spec.scan h0 (List.length (pre ++ p :: r' :: post))
                      (pre ++ p :: r' :: post)
            = INVALID_CHAIN (id r) (current_hash p) h).
  { intros h0 HL.
    change (pre ++ p :: r :: post) with (pre ++ [p] ++ r :: post) in HL.
    rewrite app_assoc in HL.
    apply linked_from_app in HL as [HL _].
    change (pre ++ p :: r' :: post) with (pre ++ [p] ++ r' :: post).
    rewrite app_assoc.
    rewrite (scan_finds_break (pre ++ [p]) h0 _ r' post).
    - rewrite last_hash_snoc. reflexivity.
    - exact HL.
    - rewrite last_hash_snoc. simpl. congruence. }
  destruct pre as [|b pre'].
  - apply Hgen. apply (linked_head _ p (r :: post) eq_refl HV).
  - apply Hgen. apply (linked_head _ b _ eq_refl HV).
Qed.

Lemma previous_hash_edit_detected_witness :
  blocks db2 = [first_row; second_row]
  /\ forged_hash <> previous_hash second_row
  /\ verify_chain (mkDb [first_row; set_previous_hash forged_hash second_row]
                         (sqlite_sequence db2))
     = INVALID_CHAIN (id second_row) (current_hash first_row) forged_hash.
Proof.
  assert (E : blocks db2 = [] ++ first_row :: second_row :: [])
    by (vm_compute; reflexivity).
  assert (Hne : forged_hash <> previous_hash second_row)
    by (vm_compute; discriminate).
  split; [exact E|]. split; [exact Hne|].
  apply (previous_hash_edit_detected db2 [] first_row second_row []
           forged_hash E).
  - vm_compute. repeat constructor.
  - vm_compute; reflexivity.
  - exact Hne.
Defined.

(** X6.  What [verify_chain] cannot notice: when a table stored in key
    order verifies, so does every table made of a run of consecutive
    rows of it.  Removing the newest blocks, the oldest blocks, or both,
    leaves a chain that is reported valid. *)
Theorem truncation_passes_verify db pre mid post seq :
  blocks db = pre ++ mid ++ post ->
  Sorted Z.lt (map id (blocks db)) ->
  valid (verify_chain db) = true ->
  valid (verify_chain (mkDb mid seq)) = true.
Proof.
  intros Hb HS HV.
  apply verify_chain_valid_iff in HV.
  rewrite (sorted_select_all db HS), Hb in HV.
  apply verify_chain_valid_iff.
  rewrite sorted_select_all.
  - simpl. eapply all_linked_segment. exact HV.
  - simpl. rewrite Hb, !map_app in HS.
    apply sorted_app_inv in HS as [_ HS].
    apply sorted_app_inv in HS as [HS _]. exact HS.
Qed.

Lemma truncation_passes_verify_witness :
  blocks db2 = [first_row; second_row]
  /\ valid (verify_chain (mkDb [second_row] 2)) = true
  /\ valid (verify_chain (mkDb [first_row] 2)) = true.
Proof.
  assert (E1 : blocks db2 = [first_row] ++ [second_row] ++ [])
    by (vm_compute; reflexivity).
  assert (E2 : blocks db2 = [] ++ [first_row] ++ [second_row])
    by (vm_compute; reflexivity).
  assert (HS : Sorted Z.lt (map id (blocks db2))).
  { vm_compute. repeat constructor. }
  assert (HV : valid (verify_chain db2) = true) by (vm_compute; reflexivity).
  split; [exact E2|]. split.
  - apply (truncation_passes_verify db2 [first_row] [second_row] [] 2
             E1 HS HV).
  - apply (truncation_passes_verify db2 [] [first_row] [second_row] 2
             E2 HS HV).
Defined.

(** X7.  The digest of the newest block is never checked: in a table
    stored in key order that verifies, overwriting the [current_hash] of
    the last row with any value leaves a chain that is reported valid. *)
Theorem newest_digest_unchecked db pre r h :
  blocks db = pre ++ [r] ->
  Sorted Z.lt (map id (blocks db)) ->
  valid (verify_chain db) = true ->
  valid (verify_chain (mkDb (pre ++ [set_current_hash h r])
                            (sqlite_sequence db))) = true.
Proof.
  intros Hb HS HV.
  apply verify_chain_valid_iff in HV.
  rewrite (sorted_select_all db HS), Hb in HV.
  apply verify_chain_valid_iff.
  rewrite sorted_select_all.
  2:{ simpl. rewrite Hb in HS. rewrite map_app in *. exact HS. }
  simpl. destruct pre as [|b pre'].
  - intros [|i] x y Hx Hy; simpl in *;
      [discriminate | destruct i; discriminate].
  - simpl in *. apply all_linked_cons. apply all_linked_cons in HV.
    apply linked_from_app in HV as [Hpre [Hr _]].
    apply linked_from_app. split; [exact Hpre|]. simpl. auto.
Qed.

Lemma newest_digest_unchecked_witness :
  blocks db2 = [first_row; second_row]
  /\ valid (verify_chain
              (mkDb [first_row; set_current_hash forged_hash second_row]
                    (sqlite_sequence db2)))
     = true.
Proof.
  assert (E : blocks db2 = [first_row] ++ [second_row])
    by (vm_compute; reflexivity).
  split; [exact E|].
  apply (newest_digest_unchecked db2 [first_row] second_row forged_hash E).
  - vm_compute. repeat constructor.
  - vm_compute; reflexivity.
Defined.

(** ** create_block on any table *)

(** X8.  Row ids are never reused, on any table stored in key order,
    with gaps or rows deleted at the end: after a run of calls the table
    is still in key order, and every id a receipt returns is larger than
    [sqlite_sequence] and than every id the table held before the run. *)
Theorem ids_never_reused cs : forall self db rs self' db',
  Sorted Z.lt (map id (blocks db)) ->
  run_calls self db cs = (rs, self', db') ->
  Sorted Z.lt (map id (blocks db'))
  /\ forall x, In x (receipts rs) ->
       sqlite_sequence db < block_id x
       /\ forall b, In b (blocks db) -> id b < block_id x.
Proof.
  induction cs as [|c cs IH]; intros self db rs self' db' HS H.
  - inversion H; subst. split; [exact HS|]. intros x [].
  - split_run H r s1 d1 rs1 E1 E2.
    destruct (create_block_sorted _ _ _ _ _ _ HS E1) as (HS1 & Hseq & _).
    destruct (IH _ _ _ _ _ HS1 E2) as [HS2 Hnew].
    split; [exact HS2|]. intros x Hx.
    rewrite receipts_cons in Hx. apply in_app_or in Hx as [Hx|Hx].
    + destruct r as [e|y]; [contradiction|].
      destruct Hx as [<-|[]].
      apply create_block_inr in E1 as (_ & _ & _ & -> & _). simpl.
      split; [unfold next_rowid; lia|].
      intros b Hb. apply next_rowid_fresh. exact Hb.
    + destruct (Hnew x Hx) as [Hs Hb]. split; [lia|].
      intros b Hin. apply Hb. destruct r as [e|y].
      * apply create_block_inl in E1 as [_ ->]. exact Hin.
      * apply create_block_inr in E1 as (_ & _ & _ & _ & _ & ->). simpl.
        apply in_or_app. left. exact Hin.
Qed.

Lemma ids_never_reused_witness :
  Sorted Z.lt (map id (blocks (mkDb [second_row] 5)))
  /\ run_calls logger0 (mkDb [second_row] 5) [water_call]
     = ([inr (mkReceipt 6 genesis (block_hash genesis water_call)
                        (utcnow water_call) "VERIFIED"%string)],
        mkLogger (Some (Appended 6 genesis (block_hash genesis water_call))),
        mkDb [second_row; appended_row 6 genesis water_call] 6)
  /\ Sorted Z.lt (map id [second_row; appended_row 6 genesis water_call]).
Proof.
  assert (HS : Sorted Z.lt (map id (blocks (mkDb [second_row] 5)))).
  { vm_compute. repeat constructor. }
  assert (E : run_calls logger0 (mkDb [second_row] 5) [water_call]
              = ([inr (mkReceipt 6 genesis (block_hash genesis water_call)
                                 (utcnow water_call) "VERIFIED"%string)],
                 mkLogger (Some (Appended 6 genesis
                                   (block_hash genesis water_call))),
                 mkDb [second_row; appended_row 6 genesis water_call] 6))
    by (vm_compute; reflexivity).
  split; [exact HS|]. split; [exact E|].
  apply (ids_never_reused [water_call] _ _ _ _ _ HS E).
Defined.

(** X9.  Digests stay unique: when the stored [current_hash] values are
    pairwise distinct before a run of calls, they are so after it, and no
    receipt of the run repeats a digest of another receipt or of a row
    that was there before. *)
Theorem digests_stay_unique self db cs rs self' db' :
  NoDup (map current_hash (blocks db)) ->
  run_calls self db cs = (rs, self', db') ->
  NoDup (map current_hash (blocks db'))
  /\ NoDup (map current_hash (blocks db)
            ++ map r_current_hash (receipts rs)).
Proof.
  intros ND H.
  pose proof (run_calls_unique _ _ _ _ _ _ ND H) as ND'.
  split; [exact ND'|].
  destruct (run_calls_appends _ _ _ _ _ _ H) as (news & Hb & _ & Hm).
  rewrite Hb, map_app in ND'.
  assert (Hm' : map current_hash news = map r_current_hash (receipts rs)).
  { apply (f_equal (map snd)) in Hm. rewrite !map_map in Hm. exact Hm. }
  rewrite <- Hm'. exact ND'.
Qed.

Lemma digests_stay_unique_witness :
  NoDup (map current_hash (blocks db0))
  /\ NoDup (map current_hash (blocks db2))
  /\ NoDup (map current_hash (blocks db0)
            ++ map r_current_hash (receipts (fst (fst logged2)))).
Proof.
  assert (ND : NoDup (map current_hash (blocks db0))) by constructor.
  split; [exact ND|].
  apply (digests_stay_unique logger0 db0 [water_call; fund_call]
           (fst (fst logged2)) (snd (fst logged2)) db2 ND).
  vm_compute; reflexivity.
Defined.



(** X11.  Restart safety: in every state the class reaches from a new
    file, a logger newly opened on the file returns for any call the same
    result, and leaves the same file, as the logger that wrote it. *)
Theorem restart_continues_chain self db c :
  reachable self db ->
  fst (fst (create_block (fst (new_logger (Some db))) db c))
  = fst (fst (create_block self db c))
  /\ snd (create_block (fst (new_logger (Some db))) db c)
     = snd (create_block self db c).
Proof.
  intros HR. apply reachable_consistent in HR as (HN & HT & _).
  destruct (new_logger_consistent db HN) as (_ & HT' & _).
  apply create_block_cached. congruence.
Qed.

Lemma restart_continues_chain_witness :
  reachable (snd (fst logged1)) db1
  /\ fst (fst (create_block (fst (new_logger (Some db1))) db1 fund_call))
     = fst (fst (create_block (snd (fst logged1)) db1 fund_call)).
Proof.
  assert (HR : reachable (snd (fst logged1)) db1).
  { exact (reach_call logger0 db0 water_call reach_new). }
  split; [exact HR|].
  pose proof (restart_continues_chain (snd (fst logged1)) db1 fund_call HR)
    as [H _].
  exact H.
Defined.

(** ** get_recent_logs *)

(** X12.  [get_recent_logs(limit)] returns [limit] entries, or all the
    rows when there are fewer; with a negative limit it returns all the
    rows. *)
Theorem recent_logs_length db limit logs :
  get_recent_logs db false limit = inr logs ->
  List.length logs
  = if limit <? 0 then List.length (blocks db)
    else Nat.min (Z.to_nat limit) (List.length (blocks db)).
Proof.
  unfold get_recent_logs, select_recent, sql_limit.
  destruct ((limit <? - max_rowid - 1) || (max_rowid <? limit));
    [discriminate|].
  intros H. inversion H; subst. rewrite length_map.
  destruct (limit <? 0).
  - rewrite length_rev. apply order_by_id_length.
  - rewrite length_firstn, length_rev, order_by_id_length. reflexivity.
Qed.

Lemma recent_logs_length_witness :
  get_recent_logs db2 false 1 = inr [log_of_row second_row]
  /\ get_recent_logs db2 false (-1)
     = inr [log_of_row second_row; log_of_row first_row]
  /\ List.length [log_of_row second_row] = 1%nat.
Proof.
  assert (E : get_recent_logs db2 false 1 = inr [log_of_row second_row])
    by (vm_compute; reflexivity).
  split; [exact E|]. split; [vm_compute; reflexivity|].
  pose proof (recent_logs_length db2 1 _ E) as H.
  rewrite H. vm_compute; reflexivity.
Defined.

(** X13.  Append then read: after a successful [create_block] on a table
    stored in key order, [get_recent_logs(limit)] with [limit >= 1]
    returns first the entry of the new block, carrying the receipt's id,
    digests and timestamp and the call's arguments, followed by what
    [get_recent_logs(limit - 1)] returned before the call. *)
Theorem recent_logs_after_append self db c r self' db' limit :
  Sorted Z.lt (map id (blocks db)) ->
  create_block self db c = (inr r, self', db') ->
  1 <= limit <= max_rowid ->
  exists older,
    get_recent_logs db false (limit - 1) = inr older
    /\ get_recent_logs db' false limit
       = inr (mkLog (block_id r) (r_previous_hash r) (r_current_hash r)
                    (r_timestamp r) (arg_data_type c) (arg_sensor_id c)
                    (arg_fund_id c) (arg_anomaly_type c) (arg_severity c)
              :: older).
Proof.
  intros HS H Hl.
  destruct (create_block_sorted _ _ _ _ _ _ HS H) as (HS' & _ & _).
  apply create_block_inr in H as (_ & _ & _ & -> & _ & ->).
  unfold get_recent_logs, select_recent, sql_limit.
  change (order_by_id (blocks db)) with (select_all db).
  rewrite (sorted_select_all db HS).
  match goal with
  | |- context [order_by_id (blocks ?d)] =>
      change (order_by_id (blocks d)) with (select_all d);
      rewrite (sorted_select_all d HS')
  end.
  cbn [blocks]. rewrite rev_unit.
  assert (R : forall l, 0 <= l <= max_rowid ->
            (l <? - max_rowid - 1) || (max_rowid <? l) = false).
  { intros l Hr. apply orb_false_intro; apply Z.ltb_ge;
      unfold max_rowid in *; lia. }
  rewrite (R limit), (R (limit - 1)) by lia.
  destruct (Z.ltb_spec (limit - 1) 0); [lia|].
  destruct (Z.ltb_spec limit 0); [lia|].
  eexists. split; [reflexivity|].
  replace (Z.to_nat limit) with (S (Z.to_nat (limit - 1))) by lia.
  reflexivity.
Qed.

Lemma recent_logs_after_append_witness :
  Sorted Z.lt (map id (blocks db1))
  /\ get_recent_logs db1 false (2 - 1) = inr [log_of_row first_row]
  /\ get_recent_logs db2 false 2
     = inr [log_of_row second_row; log_of_row first_row].
Proof.
  assert (HS : Sorted Z.lt (map id (blocks db1))).
  { vm_compute. repeat constructor. }
  assert (E : create_block (snd (fst logged1)) db1 fund_call
              = (inr (mkReceipt 2 (block_hash genesis water_call)
                        (block_hash (block_hash genesis water_call) fund_call)
                        (utcnow fund_call) "VERIFIED"%string),
                 snd (fst logged2), db2))
    by (vm_compute; reflexivity).
  split; [exact HS|].
  destruct (recent_logs_after_append _ _ _ _ _ _ 2 HS E)
    as (older & Ho & Hn); [vm_compute; split; discriminate|].
  assert (Ho' : get_recent_logs db1 false (2 - 1)
                = inr [log_of_row first_row]) by (vm_compute; reflexivity).
  split; [exact Ho'|].
  rewrite Ho' in Ho. injection Ho as <-. exact Hn.
Defined.

(** X14.  Newest first: on a ledger the class has written from a new
    file, the ids of the entries [get_recent_logs(limit)] returns count
    down from the number of rows: n, n-1, ... *)
Theorem recent_logs_newest_first self db limit logs :
  reachable self db ->
  get_recent_logs db false limit = inr logs ->
  0 <= limit ->
  map log_id logs
  = map (fun j => Z.of_nat (List.length (blocks db)) - Z.of_nat j)
        (seq 0 (Nat.min (Z.to_nat limit) (List.length (blocks db)))).
Proof.
  intros HR H Hl. apply reachable_consistent in HR as (HN & _ & _).
  unfold get_recent_logs, select_recent, sql_limit in H.
  destruct ((limit <? - max_rowid - 1) || (max_rowid <? limit));
    [discriminate|].
  destruct (Z.ltb_spec limit 0); [lia|].
  inversion H; subst; clear H.
  change (order_by_id (blocks db)) with (select_all db).
  rewrite (numbered_select_all db HN), map_map.
  change (fun x => log_id (log_of_row x)) with id.
  rewrite <- firstn_map, map_rev.
  destruct HN as [Hid _]. rewrite Hid, rev_count_down.
  rewrite firstn_map, firstn_count. reflexivity.
Qed.

Lemma recent_logs_newest_first_witness :
  reachable (snd (fst logged1)) db1
  /\ get_recent_logs db1 false 5 = inr [log_of_row first_row]
  /\ map log_id [log_of_row first_row] = [1].
Proof.
  assert (HR : reachable (snd (fst logged1)) db1).
  { exact (reach_call logger0 db0 water_call reach_new). }
  assert (E : get_recent_logs db1 false 5 = inr [log_of_row first_row])
    by (vm_compute; reflexivity).
  split; [exact HR|]. split; [exact E|].
  pose proof (recent_logs_newest_first _ _ 5 _ HR E) as H.
  rewrite H; [vm_compute; reflexivity | lia].
Defined.

(** X15.  The recent logs show the chain backwards: on a table stored in
    key order that verifies, each entry [get_recent_logs] returns names
    as [previous_hash] the [current_hash] of the entry listed after it. *)
Theorem recent_logs_linked db limit logs :
  Sorted Z.lt (map id (blocks db)) ->
  valid (verify_chain db) = true ->
  get_recent_logs db false limit = inr logs ->
  forall i a b,
    nth_error logs i = Some a -> nth_error logs (S i) = Some b ->
    log_previous_hash a = log_current_hash b.
Proof.
  intros HS HV H i a b Ha Hb.
  apply verify_chain_valid_iff in HV. rewrite (sorted_select_all db HS) in HV.
  unfold get_recent_logs, select_recent in H.
  destruct ((limit <? - max_rowid - 1) || (max_rowid <? limit));
    [discriminate|].
  inversion H; subst; clear H.
  change (order_by_id (blocks db)) with (select_all db) in *.
  rewrite (sorted_select_all db HS) in *.
  destruct (sql_limit_prefix limit (rev (blocks db))) as [k Hk].
  rewrite Hk in *.
  rewrite nth_error_map, nth_error_firstn in Ha, Hb.
  destruct (Nat.ltb (S i) k); [|discriminate].
  destruct (Nat.ltb i k); [|discriminate].
  destruct (nth_error (rev (blocks db)) i) as [ra|] eqn:Era; [|discriminate].
  destruct (nth_error (rev (blocks db)) (S i)) as [rb|] eqn:Erb;
    [|discriminate].
  simpl in Ha, Hb. inversion Ha; inversion Hb; subst. simpl.
  eapply rev_linked; eauto.
Qed.

Lemma recent_logs_linked_witness :
  get_recent_logs db2 false 2
  = inr [log_of_row second_row; log_of_row first_row]
  /\ log_previous_hash (log_of_row second_row)
     = log_current_hash (log_of_row first_row).
Proof.
  assert (HS : Sorted Z.lt (map id (blocks db2))).
  { vm_compute. repeat constructor. }
  assert (HV : valid (verify_chain db2) = true) by (vm_compute; reflexivity).
  assert (E : get_recent_logs db2 false 2
              = inr [log_of_row second_row; log_of_row first_row])
    by (vm_compute; reflexivity).
  split; [exact E|].
  apply (recent_logs_linked db2 2 _ HS HV E 0%nat); reflexivity.
Defined.

(** ** log_water_anomaly and log_fund_anomaly *)

(** X16.  The row [log_water_anomaly] stores: the receipt's id and
    digests, the call's clock reading, data_type WATER_ANOMALY, no
    fund_id, the report's [sensor_id] (NULL when the key is missing), its
    [severity] (LOW when the key is missing), and the whole report as
    JSON text.  Of the anomalies only the kind of the first one reaches
    the [anomaly_type] column; it is NULL when the report has none. *)
Theorem water_log_row self db now fails d r self' db' :
  log_water_anomaly self db now fails d = Some (inr r, self', db') ->
  exists b,
    blocks db' = blocks db ++ [b]
    /\ links b = receipt_links r
    /\ timestamp b = now
    /\ data_type b = ustr "WATER_ANOMALY"
    /\ fund_id b = None
    /\ Py.get d (ustr "sensor_id") JNull = of_optional (sensor_id b)
    /\ Py.get d (ustr "severity") (JStr (ustr "LOW")) = JStr (severity b)
    /\ data b = dumps false (JDict d)
    /\ (Py.truthy (Py.get d (ustr "anomalies") JNull) = false ->
        anomaly_type b = None)
    /\ (forall k v others,
          Py.lookup d (ustr "anomalies")
          = Some (JList (JList (JStr k :: v) :: others)) ->
          anomaly_type b = Some k).
Proof.
  intros H. apply log_water_anomaly_inv in H
    as [(e & _ & He & _)|(s & k & l & r0 & Hs & Hk & Hl & Hc & Hr)];
    [discriminate|].
  symmetry in Hr. apply lift_result_inr in Hr. subst r0.
  apply create_block_inr in Hc as (_ & _ & _ & -> & _ & ->).
  eexists. split; [reflexivity|].
  unfold appended_row, links, receipt_links.
  cbn [id previous_hash current_hash timestamp data_type sensor_id fund_id
       anomaly_type severity data block_id r_previous_hash r_current_hash
       utcnow arg_data_type arg_sensor_id arg_fund_id arg_anomaly_type
       arg_severity arg_data].
  split; [reflexivity|]. split; [reflexivity|]. split; [reflexivity|].
  split; [reflexivity|]. split; [exact Hs|]. split; [exact Hl|].
  split; [reflexivity|]. split.
  - intros Hf. rewrite (first_anomaly_none d Hf) in Hk.
    injection Hk as Hk. apply (of_optional_inj None k) in Hk. auto.
  - intros k0 v others Hlk. rewrite (first_anomaly_kind d _ _ _ Hlk) in Hk.
    injection Hk as Hk. apply (of_optional_inj (Some k0) k) in Hk. auto.
Qed.

Lemma water_log_row_witness :
  log_water_anomaly logger0 db0 (utcnow water_call) false water_report
  = Some (inr (mkReceipt 1 genesis (block_hash genesis water_call)
                 (utcnow water_call) "VERIFIED"%string),
          snd (fst logged1), db1)
  /\ exists b,
       blocks db1 = blocks db0 ++ [b]
       /\ data_type b = ustr "WATER_ANOMALY"
       /\ fund_id b = None
       /\ anomaly_type b = Some (ustr "LOW_PH").
Proof.
  assert (E : log_water_anomaly logger0 db0 (utcnow water_call) false
                water_report
              = Some (inr (mkReceipt 1 genesis (block_hash genesis water_call)
                             (utcnow water_call) "VERIFIED"%string),
                      snd (fst logged1), db1))
    by (vm_compute; reflexivity).
  split; [exact E|].
  destruct (water_log_row _ _ _ _ _ _ _ _ E)
    as (b & Hb & _ & _ & Ht & Hf & _ & _ & _ & _ & Hk).
  exists b. split; [exact Hb|]. split; [exact Ht|]. split; [exact Hf|].
  eapply Hk. vm_compute. reflexivity.
Defined.

(** X17.  The row [log_fund_anomaly] stores: as for the water method,
    with data_type FUND_ANOMALY, the report's [fund_id] and no
    sensor_id. *)
Theorem fund_log_row self db now fails d r self' db' :
  log_fund_anomaly self db now fails d = Some (inr r, self', db') ->
  exists b,
    blocks db' = blocks db ++ [b]
    /\ links b = receipt_links r
    /\ timestamp b = now
    /\ data_type b = ustr "FUND_ANOMALY"
    /\ sensor_id b = None
    /\ Py.get d (ustr "fund_id") JNull = of_optional (fund_id b)
    /\ Py.get d (ustr "severity") (JStr (ustr "LOW")) = JStr (severity b)
    /\ data b = dumps false (JDict d)
    /\ (Py.truthy (Py.get d (ustr "anomalies") JNull) = false ->
        anomaly_type b = None)
    /\ (forall k v others,
          Py.lookup d (ustr "anomalies")
          = Some (JList (JList (JStr k :: v) :: others)) ->
          anomaly_type b = Some k).
Proof.
  intros H. apply log_fund_anomaly_inv in H
    as [(e & _ & He & _)|(s & k & l & r0 & Hs & Hk & Hl & Hc & Hr)];
    [discriminate|].
  symmetry in Hr. apply lift_result_inr in Hr. subst r0.
  apply create_block_inr in Hc as (_ & _ & _ & -> & _ & ->).
  eexists. split; [reflexivity|].
  unfold appended_row, links, receipt_links.
  cbn [id previous_hash current_hash timestamp data_type sensor_id fund_id
       anomaly_type severity data block_id r_previous_hash r_current_hash
       utcnow arg_data_type arg_sensor_id arg_fund_id arg_anomaly_type
       arg_severity arg_data].
  split; [reflexivity|]. split; [reflexivity|]. split; [reflexivity|].
  split; [reflexivity|]. split; [exact Hs|]. split; [exact Hl|].
  split; [reflexivity|]. split.
  - intros Hf. rewrite (first_anomaly_none d Hf) in Hk.
    injection Hk as Hk. apply (of_optional_inj None k) in Hk. auto.
  - intros k0 v others Hlk. rewrite (first_anomaly_kind d _ _ _ Hlk) in Hk.
    injection Hk as Hk. apply (of_optional_inj (Some k0) k) in Hk. auto.
Qed.

Lemma fund_log_row_witness :
  log_fund_anomaly (snd (fst logged1)) db1 (utcnow fund_call) false
    fund_report
  = Some (inr (mkReceipt 2 (block_hash genesis water_call)
                 (block_hash (block_hash genesis water_call) fund_call)
                 (utcnow fund_call) "VERIFIED"%string),
          snd (fst logged2), db2)
  /\ exists b,
       blocks db2 = blocks db1 ++ [b]
       /\ data_type b = ustr "FUND_ANOMALY"
       /\ sensor_id b = None
       /\ anomaly_type b = Some (ustr "HIGH_DISCREPANCY").
Proof.
  assert (E : log_fund_anomaly (snd (fst logged1)) db1 (utcnow fund_call)
                false fund_report
              = Some (inr (mkReceipt 2 (block_hash genesis water_call)
                             (block_hash (block_hash genesis water_call)
                                         fund_call)
                             (utcnow fund_call) "VERIFIED"%string),
                      snd (fst logged2), db2))
    by (vm_compute; reflexivity).
  split; [exact E|].
  destruct (fund_log_row _ _ _ _ _ _ _ _ E)
    as (b & Hb & _ & _ & Ht & Hf & _ & _ & _ & _ & Hk).
  exists b. split; [exact Hb|]. split; [exact Ht|]. split; [exact Hf|].
  eapply Hk. vm_compute. reflexivity.
Defined.



(** X19.  A first anomaly that cannot be subscripted: when the report's
    [anomalies] is a non-empty list whose first element [a] makes [a[0]]
    raise (an empty tuple or string: IndexError; a dict: KeyError; a
    number, a boolean or None: TypeError), both methods raise that
    exception before anything is stored, whatever the other members of
    the report are. *)
Theorem malformed_first_anomaly_raises self db now fails d a others e :
  Py.lookup d (ustr "anomalies") = Some (JList (a :: others)) ->
  Py.item0 a = inl e ->
  log_water_anomaly self db now fails d = Some (inl (PyError e), self, db)
  /\ log_fund_anomaly self db now fails d = Some (inl (PyError e), self, db).
Proof.
  intros H Ha. unfold log_water_anomaly, log_fund_anomaly.
  rewrite (first_anomaly_raises d a others e H Ha). split; reflexivity.
Qed.

Lemma malformed_first_anomaly_raises_witness :
  log_water_anomaly logger0 db0 (utcnow water_call) false
    [(ustr "sensor_id", JInt 7);
     (ustr "anomalies", JList [JList []; JNull])]
  = Some (inl (PyError Py.IndexError), logger0, db0)
  /\ log_fund_anomaly logger0 db0 (utcnow water_call) false
       [(ustr "anomalies", JList [JDict []])]
     = Some (inl (PyError Py.KeyError), logger0, db0).
Proof.
  split.
  - apply (malformed_first_anomaly_raises logger0 db0 _ false _
             (JList []) [JNull] Py.IndexError); reflexivity.
  - apply (malformed_first_anomaly_raises logger0 db0 _ false _
             (JDict []) [] Py.KeyError); reflexivity.
Defined.

(** X20.  On a ledger written through the two logging methods only,
    every row is a water row without fund_id or a fund row without
    sensor_id. *)
Theorem logged_rows_are_typed self db :
  logged self db ->
  Forall (fun b =>
            (data_type b = ustr "WATER_ANOMALY" /\ fund_id b = None)
            \/ (data_type b = ustr "FUND_ANOMALY" /\ sensor_id b = None))
         (blocks db).
Proof. apply logged_typed. Qed.

Lemma logged_rows_are_typed_witness :
  logged (snd (fst logged1)) db1
  /\ Forall (fun b =>
               (data_type b = ustr "WATER_ANOMALY" /\ fund_id b = None)
               \/ (data_type b = ustr "FUND_ANOMALY" /\ sensor_id b = None))
            (blocks db1).
Proof.
  assert (E : log_water_anomaly (fst (new_logger None)) (snd (new_logger None))
                (utcnow water_call) false water_report
              = Some (inr (mkReceipt 1 genesis (block_hash genesis water_call)
                             (utcnow water_call) "VERIFIED"%string),
                      snd (fst logged1), db1))
    by (vm_compute; reflexivity).
  assert (HL : logged (snd (fst logged1)) db1).
  { exact (logged_water _ _ _ _ _ _ _ _ logged_new E). }
  split; [exact HL|].
  apply (logged_rows_are_typed _ _ HL).
Defined.

(** X21.  A ledger written through the two logging methods only, on one
    logger from a new file, has the ids 1..n in order and verifies. *)
Theorem logged_ledger_verifies self db :
  logged self db ->
  map id (select_all db) = map Z.of_nat (seq 1 (List.length (blocks db)))
  /\ valid (verify_chain db) = true.
Proof.
  intros HL. apply logged_reachable in HL.
  pose proof (reachable_all_linked _ _ HL) as Hlk.
  apply reachable_consistent in HL as (HN & _ & _).
  split.
  - rewrite (numbered_select_all db HN). apply HN.
  - apply verify_chain_valid_iff.
    rewrite (numbered_select_all db HN). exact Hlk.
Qed.

Lemma logged_ledger_verifies_witness :
  logged (snd (fst logged1)) db1
  /\ valid (verify_chain db1) = true.
Proof.
  assert (E : log_water_anomaly (fst (new_logger None)) (snd (new_logger None))
                (utcnow water_call) false water_report
              = Some (inr (mkReceipt 1 genesis (block_hash genesis water_call)
                             (utcnow water_call) "VERIFIED"%string),
                      snd (fst logged1), db1))
    by (vm_compute; reflexivity).
  assert (HL : logged (snd (fst logged1)) db1).
  { exact (logged_water _ _ _ _ _ _ _ _ logged_new E). }
  split; [exact HL|].
  destruct (logged_ledger_verifies _ _ HL) as [_ H]. exact H.
Defined.

(** ** The dashboard *)

Import Dashboard.

(** X22.  After [update_stats] has run to its end on a table, the total
    is the number of rows, the water and fund counts together do not
    exceed it, the critical count lies between zero and the total, and
    [last_update] is the clock reading of this run. *)
Theorem stats_counts_bounded st db now :
  total_anomalies (update_stats st (Some db) None now)
  = Z.of_nat (List.length (blocks db))
  /\ water_anomalies (update_stats st (Some db) None now)
     + fund_anomalies (update_stats st (Some db) None now)
     <= total_anomalies (update_stats st (Some db) None now)
  /\ 0 <= critical_count (update_stats st (Some db) None now)
       <= total_anomalies (update_stats st (Some db) None now)
  /\ last_update (update_stats st (Some db) None now) = now.
Proof.
  simpl. rewrite count_all. split; [reflexivity|]. split; [|split].
  - unfold count_where.
    pose proof (count_disjoint is_water is_fund (blocks db) water_not_fund).
    lia.
  - rewrite <- count_all. apply count_where_bounds.
  - reflexivity.
Qed.

(** X23.  On a ledger written through the two logging methods only, the
    dashboard's total is exactly the water count plus the fund count. *)
Theorem stats_partition_on_logged self db st now :
  logged self db ->
  total_anomalies (update_stats st (Some db) None now)
  = water_anomalies (update_stats st (Some db) None now)
    + fund_anomalies (update_stats st (Some db) None now).
Proof.
  intros HL. apply logged_typed in HL. simpl. rewrite count_all.
  unfold count_where.
  rewrite <- (count_partition is_water is_fund (blocks db)); [lia|].
  eapply Forall_impl; [|exact HL].
  intros b [[Hd _]|[Hd _]]; unfold is_water, is_fund; rewrite Hd;
    reflexivity.
Qed.

Lemma stats_partition_on_logged_witness :
  logged (snd (fst logged1)) db1
  /\ total_anomalies (update_stats (mkStats 0 0 0 0 "t") (Some db1) None "t")
     = 1.
Proof.
  assert (E : log_water_anomaly (fst (new_logger None)) (snd (new_logger None))
                (utcnow water_call) false water_report
              = Some (inr (mkReceipt 1 genesis (block_hash genesis water_call)
                             (utcnow water_call) "VERIFIED"%string),
                      snd (fst logged1), db1))
    by (vm_compute; reflexivity).
  assert (HL : logged (snd (fst logged1)) db1).
  { exact (logged_water _ _ _ _ _ _ _ _ logged_new E). }
  split; [exact HL|].
  rewrite (stats_partition_on_logged _ _ (mkStats 0 0 0 0 "t") "t" HL).
  vm_compute; reflexivity.
Defined.

(** X24.  Logging then refreshing: a successful [log_water_anomaly]
    raises the dashboard's total and water count by one and leaves the
    fund count; a successful [log_fund_anomaly] raises the total and the
    fund count by one and leaves the water count. *)
Theorem stats_after_logging self db now fails d r self' db' st t t' :
  (log_water_anomaly self db now fails d = Some (inr r, self', db') ->
   total_anomalies (update_stats st (Some db') None t')
   = total_anomalies (update_stats st (Some db) None t) + 1
   /\ water_anomalies (update_stats st (Some db') None t')
      = water_anomalies (update_stats st (Some db) None t) + 1
   /\ fund_anomalies (update_stats st (Some db') None t')
      = fund_anomalies (update_stats st (Some db) None t))
  /\ (log_fund_anomaly self db now fails d = Some (inr r, self', db') ->
      total_anomalies (update_stats st (Some db') None t')
      = total_anomalies (update_stats st (Some db) None t) + 1
      /\ water_anomalies (update_stats st (Some db') None t')
         = water_anomalies (update_stats st (Some db) None t)
      /\ fund_anomalies (update_stats st (Some db') None t')
         = fund_anomalies (update_stats st (Some db) None t) + 1).
Proof.
  split; intros H.
  - apply log_water_anomaly_inv in H
      as [(e & _ & He & _)|(s & k & l & r0 & _ & _ & _ & Hc & Hr)];
      [discriminate|].
    symmetry in Hr. apply lift_result_inr in Hr. subst r0.
    apply create_block_inr in Hc as (_ & _ & _ & _ & _ & ->).
    cbn [update_stats total_anomalies water_anomalies fund_anomalies
         Nat.leb].
    destruct db as [rows seq].
    cbn [blocks]. rewrite !(count_where_snoc _ rows _ seq).
    match goal with
    | |- context [is_water ?b] =>
        change (is_water b) with true; change (is_fund b) with false
    end.
    repeat split; lia.
  - apply log_fund_anomaly_inv in H
      as [(e & _ & He & _)|(s & k & l & r0 & _ & _ & _ & Hc & Hr)];
      [discriminate|].
    symmetry in Hr. apply lift_result_inr in Hr. subst r0.
    apply create_block_inr in Hc as (_ & _ & _ & _ & _ & ->).
    cbn [update_stats total_anomalies water_anomalies fund_anomalies
         Nat.leb].
    destruct db as [rows seq].
    cbn [blocks]. rewrite !(count_where_snoc _ rows _ seq).
    match goal with
    | |- context [is_water ?b] =>
        change (is_water b) with false; change (is_fund b) with true
    end.
    repeat split; lia.
Qed.

Lemma stats_after_logging_witness :
  log_water_anomaly logger0 db0 (utcnow water_call) false water_report
  = Some (inr (mkReceipt 1 genesis (block_hash genesis water_call)
                 (utcnow water_call) "VERIFIED"%string),
          snd (fst logged1), db1)
  /\ water_anomalies (update_stats (mkStats 0 0 0 0 "t") (Some db1) None "t")
     = water_anomalies (update_stats (mkStats 0 0 0 0 "t") (Some db0) None "t")
       + 1.
Proof.
  assert (E : log_water_anomaly logger0 db0 (utcnow water_call) false
                water_report
              = Some (inr (mkReceipt 1 genesis (block_hash genesis water_call)
                             (utcnow water_call) "VERIFIED"%string),
                      snd (fst logged1), db1))
    by (vm_compute; reflexivity).
  split; [exact E|].
  pose proof (stats_after_logging logger0 db0 (utcnow water_call) false
                water_report
                (mkReceipt 1 genesis (block_hash genesis water_call)
                           (utcnow water_call) "VERIFIED"%string)
                (snd (fst logged1)) db1 (mkStats 0 0 0 0 "t") "t" "t")
    as [H _].
  destruct (H E) as (_ & Hw & _). exact Hw.
Defined.

(** X25.  A refresh that is cut short: when the ledger has only grown
    since the last complete refresh, the stats left by a refresh that
    stops after any number of its queries still have the water and fund
    counts together within the total; [last_update] moves only if all
    four queries completed; on a file without the table nothing
    changes. *)
Theorem interrupted_update_stays_consistent st0 old new more k t t' :
  blocks new = blocks old ++ more ->
  water_anomalies
    (update_stats (update_stats st0 (Some old) None t) (Some new) (Some k) t')
  + fund_anomalies
      (update_stats (update_stats st0 (Some old) None t) (Some new)
                    (Some k) t')
  <= total_anomalies
       (update_stats (update_stats st0 (Some old) None t) (Some new)
                     (Some k) t')
  /\ ((k < 4)%nat ->
      last_update
        (update_stats (update_stats st0 (Some old) None t) (Some new)
                      (Some k) t') = t)
  /\ update_stats (update_stats st0 (Some old) None t) None (Some k) t'
     = update_stats st0 (Some old) None t.
Proof.
  intros Hg.
  pose proof (count_where_grows (fun _ => true) old new more Hg) as Gt.
  pose proof (count_where_grows is_water old new more Hg) as Gw.
  pose proof (count_where_grows is_fund old new more Hg) as Gf.
  pose proof (count_disjoint is_water is_fund (blocks old) water_not_fund)
    as Do.
  pose proof (count_disjoint is_water is_fund (blocks new) water_not_fund)
    as Dn.
  assert (Ho : count_where is_water old + count_where is_fund old
               <= count_where (fun _ => true) old).
  { rewrite count_all. unfold count_where. lia. }
  assert (Hn : count_where is_water new + count_where is_fund new
               <= count_where (fun _ => true) new).
  { rewrite count_all. unfold count_where. lia. }
  split; [|split; [|reflexivity]].
  - destruct k as [|[|[|[|k]]]]; simpl; lia.
  - intros Hk. destruct k as [|[|[|[|k]]]]; simpl; try reflexivity. lia.
Qed.

Lemma interrupted_update_stays_consistent_witness :
  blocks db2 = blocks db1 ++ [second_row]
  /\ water_anomalies
       (update_stats (update_stats (mkStats 0 0 0 0 "t") (Some db1) None "a")
                     (Some db2) (Some 1%nat) "b")
     + fund_anomalies
         (update_stats (update_stats (mkStats 0 0 0 0 "t") (Some db1) None "a")
                       (Some db2) (Some 1%nat) "b")
     <= total_anomalies
          (update_stats (update_stats (mkStats 0 0 0 0 "t") (Some db1) None "a")
                        (Some db2) (Some 1%nat) "b").
Proof.
  assert (E : blocks db2 = blocks db1 ++ [second_row])
    by (vm_compute; reflexivity).
  split; [exact E|].
  pose proof (interrupted_update_stays_consistent (mkStats 0 0 0 0 "t")
                db1 db2 [second_row] 1 "a" "b" E) as [H _].
  exact H.
Defined.



(** X27.  On any table stored in key order, a chain that [verify_chain]
    reports valid is reported valid by the dashboard too.  The dashboard
    compares only rows whose ids differ by one: when no two rows have
    consecutive ids it counts no issue, whatever the digests are. *)
Theorem verify_chain_valid_implies_dashboard_valid db now rep :
  verify_blockchain (Some db) false now = Some rep ->
  (Sorted Z.lt (map id (blocks db)) ->
   valid (verify_chain db) = true -> chain_valid rep = true)
  /\ ((forall b1 b2, In b1 (blocks db) -> In b2 (blocks db) ->
                     id b1 <> id b2 - 1) ->
      chain_valid rep = true).
Proof.
  intros H. simpl in H. inversion H; subst; clear H. simpl. split.
  - intros HS HV. apply Z.eqb_eq, no_issues_iff.
    apply verify_chain_valid_iff in HV.
    rewrite (sorted_select_all db HS) in HV.
    intros b1 b2 H1 H2 Hd.
    destruct (blocks db) as [|b rest] eqn:Eb; [contradiction|].
    eapply (sorted_pairs (b :: rest) (previous_hash b)); eauto.
    eapply linked_head; eauto.
  - intros Hgap. apply Z.eqb_eq, no_issues_iff.
    intros b1 b2 H1 H2 Hd. exfalso. exact (Hgap b1 b2 H1 H2 Hd).
Qed.

Lemma verify_chain_valid_implies_dashboard_valid_witness :
  verify_blockchain (Some (mkDb [first_row] 2)) false "t"
  = Some (mkReport 1 0 true "t")
  /\ Sorted Z.lt (map id (blocks (mkDb [first_row] 2)))
  /\ valid (verify_chain (mkDb [first_row] 2)) = true
  /\ chain_valid (mkReport 1 0 true "t") = true.
Proof.
  assert (E : verify_blockchain (Some (mkDb [first_row] 2)) false "t"
              = Some (mkReport 1 0 true "t"))
    by (vm_compute; reflexivity).
  assert (HS : Sorted Z.lt (map id (blocks (mkDb [first_row] 2)))).
  { vm_compute. repeat constructor. }
  assert (HV : valid (verify_chain (mkDb [first_row] 2)) = true)
    by (vm_compute; reflexivity).
  split; [exact E|]. split; [exact HS|]. split; [exact HV|].
  destruct (verify_chain_valid_implies_dashboard_valid _ _ _ E) as [H _].
  exact (H HS HV).
Defined.

(** ** The water detector *)



(** X29.  [hash_data] is a fingerprint of the reading, not of the way
    the dict was built: readings that are the same up to the order in
    which their members were inserted have the same [data_hash], and it
    is always 16 characters long. *)
Theorem hash_data_fingerprint data data' :
  Spec.same_record (JDict data) (JDict data') ->
  hash_data data = hash_data data'
  /\ String.length (hash_data data) = 16%nat.
Proof.
  intros H. split; [|apply hash_data_length].
  unfold hash_data. rewrite (dumps_same_record _ _ H). reflexivity.
Qed.

Lemma hash_data_fingerprint_witness :
  Spec.same_record (JDict water_report) water_payload_reordered
  /\ JDict water_report <> water_payload_reordered
  /\ String.length (hash_data water_report) = 16%nat.
Proof.
  assert (H : Spec.same_record (JDict water_report) water_payload_reordered).
  { eapply Spec.same_dict.
    - vm_compute. repeat constructor; simpl; intuition discriminate.
    - apply Permutation_cons_append.
    - repeat constructor. }
  split; [exact H|]. split; [vm_compute; discriminate|].
  exact (proj2 (hash_data_fingerprint water_report _ H)).
Defined.


